(** * rzx: the remote zx client (package clive/zx/rzx)

    A shallow embedding of the client handle [Fs], the address resolver
    ([FillAddr], [splitaddr]), the dial cache ([Dial], [Redial], the hangup
    watcher), tree discovery ([getTrees], [Trees], [Fsys]) and the streaming
    request envelopes ([dircall], [errcall], [Get], [Put], [Find],
    [FindGet]).

    Go strings are byte strings: they are [string] here.  Pointers ([*Fs],
    [*ch.Mux], [*auth.Info], channels, the [trees] map) are natural numbers
    into the stores of a [World]; an error value is its text and [nil] is
    [None].

    A request goroutine is followed from its first statement to its
    return, or to the receive in which it stays for ever, against what its
    peers do: the mux and the server through the two halves of the call, the
    caller through the result channel and the data channel.  [Dial] and
    [Redial] are functions on the process state; what the network, the
    authentication exchange and the server answer is their [DialEnv]
    argument.  A hangup watcher runs when its mux is closed or hangs up and
    the lock it needs is free.  Debug printing ([Dprintf], [dbg.Warn]) is
    left out. *)

From Stdlib Require Import Ascii String ZArith.
From Stdlib.Strings Require Import Byte.
From stdpp Require Import gmap strings list fin_maps sorting.

Local Open Scope string_scope.

(** ** Errors *)

Definition Err := string.
Definition error := option Err.

(** ** Address resolver *)

Module Addr.

Definition bang : ascii := "!"%char.

(** [strings.Split(s, "!")]: the pieces between the separators; a string
    without separator is its own single piece (also the empty string). *)
Fixpoint Split (s : string) : list string :=
  match s with
  | EmptyString => [EmptyString]
  | String c r =>
      if Ascii.eqb c bang then EmptyString :: Split r
      else match Split r with
           | t :: ts => String c t :: ts
           | [] => [String c EmptyString]
           end
  end.

(** [strings.Join(toks, "!")], used to state what [Split] undoes. *)
Fixpoint Join (toks : list string) : string :=
  match toks with
  | [] => EmptyString
  | [t] => t
  | t :: ts => t ++ "!" ++ Join ts
  end.

Definition FillAddr (addr : string) : string :=
  match Split addr with
  | [t0] => "tcp!" ++ t0 ++ "!zx!main"
  | [t0; t1] => "tcp!" ++ t0 ++ "!" ++ t1 ++ "!main"
  | [_; _; _] => addr ++ "!main"
  | _ => addr
  end.

(** [strings.LastIndexByte(addr, '!')] as the pair of slices around the
    last separator; [None] when there is none ([n < 0]). *)
Fixpoint lastbang (s : string) : option (string * string) :=
  match s with
  | EmptyString => None
  | String c r =>
      match lastbang r with
      | Some (pre, suf) => Some (String c pre, suf)
      | None => if Ascii.eqb c bang then Some (EmptyString, r) else None
      end
  end.

(** [splitaddr]: [None] stands for [panic("bad address")]. *)
Definition splitaddr (addr : string) : option (string * string) :=
  lastbang addr.

(** Whether a string has no separator. *)
Fixpoint nobang (s : string) : bool :=
  match s with
  | EmptyString => true
  | String c r => negb (Ascii.eqb c bang) && nobang r
  end.

End Addr.

(** ** Messages *)

(** [zx.Dir] is [map[string]string]; a missing key reads as the empty
    string. *)
Abbreviation Dir := (gmap string string).

Definition dir_get (d : Dir) (k : string) : string := default "" (d !! k).

Inductive OpCode :=
  | Ttrees | Tstat | Twstat | Tremove | Tremoveall | Tmove | Tlink
  | Tget | Tput | Tfind | Tfindget.

Record Msg := MkMsg {
  m_Op : OpCode;
  m_Fsys : string;
  m_Path : string;
  m_To : string;
  m_D : option Dir;
  m_Off : Z;
  m_Count : Z;
  m_Pred : string;
  m_Spref : string;
  m_Dpref : string;
  m_Depth : Z
}.

(** A request with only [Op], [Fsys] and [Path] set; the other fields keep
    Go's zero values. *)
Definition msg0 (op : OpCode) (fsys path : string) : Msg :=
  MkMsg op fsys path "" None 0 0 "" "" "" 0.

(** What travels on a channel (Go's [face{}]): the type switches of the
    envelopes tell these apart.  [VNil] is the zero value a receive yields
    on a closed and drained channel. *)
Inductive Val :=
  | VNil
  | VMsg (m : Msg)
  | VStr (s : string)
  | VBytes (b : list byte)
  | VDir (d : Dir)
  | VErr (e : error)
  | VOther (tag : nat).

(** Modelled from the spec: [ErrBadMsg], the fixed bad-message sentinel of
    the package; its declaration is not among the sources. *)
Definition ErrBadMsg : Err := "bad message".

(** ** Channels

    Modelled from the spec: the channel primitives of the Go dialect the
    package is written in ([ok := c <- v], [close(c, err)], [cerror(c)]);
    their runtime is not among the sources.  A closed channel keeps the
    reason of its first close ("sticky error"), closing it again changes
    nothing, a send on a closed channel reports [false], and a receive on a
    closed and drained channel yields the zero value.

    A channel is seen from the envelope's goroutine.  [ch_buf] holds the
    values queued in it: for a channel the envelope receives from, what the
    peer has sent; for one it sends on, what was accepted.  [ch_quota] is the
    peer's own closing of a channel the envelope sends on: [Some (k, e)]
    when the peer closes it with reason [e] once [k] more values have been
    accepted, [None] when the peer never closes it.  [ch_ncloses] counts the
    [close] calls the envelope makes on the channel. *)

Record Chan := MkChan {
  ch_buf : list Val;
  ch_closed : bool;
  ch_err : error;
  ch_quota : option (nat * error);
  ch_ncloses : nat
}.

Module Ch.

(** [make(chan T, n)] *)
Definition make (peer : option (nat * error)) : Chan :=
  MkChan [] false None peer 0.

(** The peer's close takes effect as soon as its quota is used up. *)
Definition settle (c : Chan) : Chan :=
  if ch_closed c then c
  else match ch_quota c with
       | Some (O, e) => MkChan (ch_buf c) true e None (ch_ncloses c)
       | _ => c
       end.

(** [cerror(c)] *)
Definition cerror (c : Chan) : error :=
  let c := settle c in
  if ch_closed c then ch_err c else None.

(** [close(c, err)] *)
Definition close (c : Chan) (e : error) : Chan :=
  let c := settle c in
  if ch_closed c
  then MkChan (ch_buf c) true (ch_err c) (ch_quota c) (S (ch_ncloses c))
  else MkChan (ch_buf c) true e (ch_quota c) (S (ch_ncloses c)).

(** [ok := c <- v] *)
Definition send (c : Chan) (v : Val) : Chan * bool :=
  let c := settle c in
  if ch_closed c then (c, false)
  else
    let q := match ch_quota c with
             | Some (S k, e) => Some (k, e)
             | q => q
             end in
    (settle (MkChan (ch_buf c ++ [v]) false (ch_err c) q (ch_ncloses c)), true).

(** [v, ok := <-c]; [None] when the receive never returns: the channel is
    empty and nobody closes it. *)
Definition recv (c : Chan) : option (Val * bool * Chan) :=
  let c := settle c in
  match ch_buf c with
  | v :: r =>
      Some (v, true, MkChan r (ch_closed c) (ch_err c) (ch_quota c) (ch_ncloses c))
  | [] => if ch_closed c then Some (VNil, false, c) else None
  end.

(** The channel after its head was received. *)
Definition rest (c : Chan) (r : list Val) : Chan :=
  MkChan r (ch_closed c) (ch_err c) (ch_quota c) (ch_ncloses c).

End Ch.

(** A call of the mux ([ch.Conn]): the outbound and the inbound half, in the
    state in which [fs.m.Rpc()] hands them out and the peer leaves them. *)
Record Call := MkCall { Out : Chan; In : Chan }.

(** ** Envelopes

    The state a request goroutine leaves behind: the two halves of its
    call, the result channel [rc] the caller holds, and whether the goroutine
    is stuck in a receive that never returns. *)
Record Envelope := MkEnv {
  e_out : Chan;
  e_in : Chan;
  e_rc : Chan;
  e_blocked : bool
}.

(** How a [for m := range c] loop ended. *)
Inductive LoopEnd := Drained | Broke.

(** [for v := range c { body }]: [body] gets the value received, the ranged
    channel after the receive and the loop's state, and says whether it
    leaves the loop ([break] or [return]).  [pend] is the queue of [c]. *)
Fixpoint range {S : Type} (body : Val -> Chan -> S -> Chan * S * bool)
    (pend : list Val) (c : Chan) (s : S) : Chan * S * LoopEnd :=
  match pend with
  | [] => (Ch.rest c [], s, Drained)
  | v :: pend' =>
      let '(c', s', brk) := body v (Ch.rest c pend') s in
      if brk then (c', s', Broke) else range body pend' c' s'
  end.

(** ** The client handle

    [*dbg.Flag], [*zx.Flags] and the debug printing they drive are left
    out; the mutex is the [holder] argument of [mux_close] below. *)
Record Fs := MkFs {
  Verb : bool;
  addr : string;
  raddr : string;
  tc : option nat;
  ai : option nat;
  trees : nat;
  fsys : string;
  m : option nat;
  closed : bool;
  closewc : nat
}.

(** The caller of an envelope never sends on [rc]; [caller] says when it
    closes [rc] itself, if it does. *)
Definition Caller := option (nat * error).

Definition dircall (c : Call) (caller : Caller) (m : Msg) : Envelope :=
  let rc := Ch.make caller in
  let '(out, ok) := Ch.send (Out c) (VMsg m) in
  if negb ok then
    let err := Ch.cerror out in
    MkEnv out (Ch.close (In c) err) rc false
  else
    let out := Ch.close out None in
    match Ch.recv (In c) with
    | None => MkEnv out (In c) rc true
    | Some (x, _, inc) =>
        let err := Ch.cerror inc in
        let '(rc, err) :=
          match err with
          | None =>
              match x with
              | VDir d => (fst (Ch.send rc (VDir d)), None)
              | _ => (rc, Some ErrBadMsg)
              end
          | Some _ => (rc, err)
          end in
        MkEnv out (Ch.close inc err) (Ch.close rc err) false
    end.

Definition Stat (fs : Fs) (c : Call) (caller : Caller) (p : string) : Envelope :=
  dircall c caller (msg0 Tstat (fsys fs) p).

Definition Wstat (fs : Fs) (c : Call) (caller : Caller) (p : string) (d : Dir)
    : Envelope :=
  dircall c caller (MkMsg Twstat (fsys fs) p "" (Some d) 0 0 "" "" "" 0).

Definition errcall (c : Call) (caller : Caller) (m : Msg) : Envelope :=
  let rc := Ch.make caller in
  let '(out, ok) := Ch.send (Out c) (VMsg m) in
  if negb ok then
    let err := Ch.cerror out in
    MkEnv out (Ch.close (In c) err) rc false
  else
    let out := Ch.close out None in
    match Ch.recv (In c) with
    | None => MkEnv out (In c) rc true
    | Some (_, _, inc) =>
        let err := Ch.cerror inc in
        let inc := Ch.close inc err in
        let rc := fst (Ch.send rc (VErr err)) in
        MkEnv out inc (Ch.close rc err) false
    end.

Definition Remove (fs : Fs) (c : Call) (caller : Caller) (p : string) : Envelope :=
  errcall c caller (msg0 Tremove (fsys fs) p).

Definition RemoveAll (fs : Fs) (c : Call) (caller : Caller) (p : string)
    : Envelope :=
  errcall c caller (msg0 Tremoveall (fsys fs) p).

Definition Move (fs : Fs) (c : Call) (caller : Caller) (from to : string)
    : Envelope :=
  errcall c caller (MkMsg Tmove (fsys fs) from to None 0 0 "" "" "" 0).

Definition Link (fs : Fs) (c : Call) (caller : Caller) (oldp newp : string)
    : Envelope :=
  errcall c caller (MkMsg Tlink (fsys fs) newp oldp None 0 0 "" "" "" 0).

(** The end of the stream envelopes: after the loop, [close(rc,
    cerror(c.In))]; a drained inbound half that nobody closes keeps the
    goroutine in its receive. *)
Definition stream_end (out : Chan) (r : Chan * Chan * LoopEnd) : Envelope :=
  let '(inc, rc, e) := r in
  match e with
  | Drained =>
      if ch_closed (Ch.settle inc)
      then MkEnv out inc (Ch.close rc (Ch.cerror inc)) false
      else MkEnv out inc rc true
  | Broke => MkEnv out inc (Ch.close rc (Ch.cerror inc)) false
  end.

Definition get_body (v : Val) (inc rc : Chan) : Chan * Chan * bool :=
  match v with
  | VBytes _ =>
      let '(rc, ok) := Ch.send rc v in
      if ok then (inc, rc, false)
      else (Ch.close inc (Ch.cerror rc), rc, true)
  | _ =>
      let err := Some ErrBadMsg in
      (Ch.close inc err, Ch.close rc err, true)
  end.

Definition Get (fs : Fs) (c : Call) (caller : Caller) (p : string) (off count : Z)
    : Envelope :=
  let rc := Ch.make caller in
  let m := MkMsg Tget (fsys fs) p "" None off count "" "" "" 0 in
  let '(out, ok) := Ch.send (Out c) (VMsg m) in
  if negb ok then
    let err := Ch.cerror out in
    MkEnv out (Ch.close (In c) err) rc false
  else
    let out := Ch.close out None in
    stream_end out (range get_body (ch_buf (In c)) (In c) rc).

Definition find_body (v : Val) (inc rc : Chan) : Chan * Chan * bool :=
  match v with
  | VDir _ =>
      let '(rc, ok) := Ch.send rc v in
      if ok then (inc, rc, false)
      else (Ch.close inc (Ch.cerror rc), rc, true)
  | _ =>
      let err := Some ErrBadMsg in
      (Ch.close inc err, Ch.close rc err, true)
  end.

Definition Find (fs : Fs) (c : Call) (caller : Caller)
    (p fpred spref dpref : string) (depth0 : Z) : Envelope :=
  let rc := Ch.make caller in
  let m := MkMsg Tfind (fsys fs) p "" None 0 0 fpred spref dpref depth0 in
  let '(out, ok) := Ch.send (Out c) (VMsg m) in
  if negb ok then
    let err := Ch.cerror out in
    MkEnv out (Ch.close (In c) err) rc false
  else
    let out := Ch.close out None in
    stream_end out (range find_body (ch_buf (In c)) (In c) rc).

Definition findget_body (v : Val) (inc rc : Chan) : Chan * Chan * bool :=
  let '(rc, ok) := Ch.send rc v in
  if ok then (inc, rc, false)
  else (Ch.close inc (Ch.cerror rc), rc, true).

Definition FindGet (fs : Fs) (c : Call) (caller : Caller)
    (p fpred spref dpref : string) (depth0 : Z) : Envelope :=
  let rc := Ch.make caller in
  let m := MkMsg Tfindget (fsys fs) p "" None 0 0 fpred spref dpref depth0 in
  let '(out, ok) := Ch.send (Out c) (VMsg m) in
  if negb ok then
    let err := Ch.cerror out in
    MkEnv out (Ch.close (In c) err) rc false
  else
    let out := Ch.close out None in
    stream_end out (range findget_body (ch_buf (In c)) (In c) rc).

(** [Put] also has the caller's data channel.  The goroutine's variable
    [dc] is rebound to a channel of its own when the caller passed [nil] or
    the entry is a directory: [p_dc] is the caller's channel as the goroutine
    leaves it ([None] for [nil]), [p_own] the channel the goroutine made, if
    it made one. *)
Record PutEnv := MkPut {
  p_env : Envelope;
  p_dc : option Chan;
  p_own : option Chan
}.

(** The channel the variable [dc] denotes, and writing it back. *)
Definition put_store (rebound : bool) (cur : Chan) (dc : option Chan)
    : option Chan * option Chan :=
  if rebound then (dc, Some cur) else (Some cur, None).

(** Body of [for m := range dc]: the state is the outbound half and whether
    the send failed. *)
Definition put_body (v : Val) (dch : Chan) (s : Chan * bool)
    : Chan * (Chan * bool) * bool :=
  let '(out, ok) := Ch.send (fst s) v in
  if ok then (dch, (out, false), false)
  else (dch, (out, true), true).

(** The reply part of [Put], from [x := <-c.In] on. *)
Definition put_reply (out inc rc : Chan) : Envelope :=
  match Ch.recv inc with
  | None => MkEnv out inc rc true
  | Some (x, _, inc) =>
      let err := Ch.cerror inc in
      let '(rc, err) :=
        match err with
        | None =>
            match x with
            | VDir d => (fst (Ch.send rc (VDir d)), None)
            | _ => (rc, Some ErrBadMsg)
            end
        | Some _ => (rc, err)
        end in
      MkEnv out (Ch.close inc err) (Ch.close rc err) false
  end.

Definition Put (fs : Fs) (c : Call) (caller : Caller) (p : string) (d : Dir)
    (off : Z) (dc : option Chan) : PutEnv :=
  let rc := Ch.make caller in
  let isdir := String.eqb (dir_get d "type") "d" in
  let rebound := match dc with None => true | Some _ => isdir end in
  let cur := if rebound then Ch.close (Ch.make None) None
             else default (Ch.make None) dc in
  let m := MkMsg Tput (fsys fs) p "" (Some d) off 0 "" "" "" 0 in
  let '(out, ok) := Ch.send (Out c) (VMsg m) in
  if negb ok then
    let err := Ch.cerror out in
    let '(dc', own) := put_store rebound cur dc in
    MkPut (MkEnv out (Ch.close (In c) err) rc false) dc' own
  else if isdir then
    let '(dc', own) := put_store rebound cur dc in
    MkPut (put_reply (Ch.close out None) (In c) rc) dc' own
  else
    let '(cur, (out, failed), e) :=
      range put_body (ch_buf cur) cur (out, false) in
    if failed then
      let err := Ch.cerror out in
      let '(dc', own) := put_store rebound (Ch.close cur err) dc in
      MkPut (MkEnv out (Ch.close (In c) err) (Ch.close rc err) false) dc' own
    else if negb (ch_closed (Ch.settle cur)) then
      let '(dc', own) := put_store rebound cur dc in
      MkPut (MkEnv out (In c) rc true) dc' own
    else
      let err := Ch.cerror cur in
      let out := Ch.close out err in
      let '(dc', own) := put_store rebound cur dc in
      match err with
      | Some _ =>
          MkPut (MkEnv out (Ch.close (In c) err) (Ch.close rc err) false) dc' own
      | None => MkPut (put_reply out (In c) rc) dc' own
      end.

(** ** Tree discovery

    [getTrees] on the call [c] that [fs.m.Rpc()] returned, with [ts] the
    contents of the map [fs.trees]: the map afterwards, the error returned
    ([None] in the last component when the goroutine is stuck in its receive
    and nothing is returned), and the call as it is left.  The map is
    written only with [true], so it is the set of its keys. *)
Definition trees_body (v : Val) (inc : Chan) (s : gset string * bool)
    : Chan * (gset string * bool) * bool :=
  match v with
  | VStr name => (inc, ({[name]} ∪ fst s, false), false)
  | _ => (Ch.close inc (Some ErrBadMsg), (fst s, true), true)
  end.

Definition getTrees (c : Call) (ts : gset string)
    : gset string * Call * option error :=
  let m := msg0 Ttrees "main" "" in
  let '(out, ok) := Ch.send (Out c) (VMsg m) in
  if negb ok then
    let err := Ch.cerror out in
    (ts, MkCall out (Ch.close (In c) err), Some err)
  else
    let out := Ch.close out None in
    let '(inc, (ts, bad), e) :=
      range trees_body (ch_buf (In c)) (In c) (ts, false) in
    if bad then (ts, MkCall out inc, Some (Some ErrBadMsg))
    else if negb (ch_closed (Ch.settle inc)) then (ts, MkCall out inc, None)
    else ({["main"]} ∪ ts, MkCall out inc, Some (Ch.cerror inc)).

(** [Trees]: the keys of the map, in the order [sort.Sort] leaves them.
    Go compares strings byte by byte, as [String.le] does. *)
Definition Trees_of (ts : gset string) : list string :=
  merge_sort String.le (elements ts).

(** Strictly ascending. *)
Definition str_lt (s t : string) : Prop := String.le s t /\ s <> t.

(** ** The process state

    [handles] is the heap of [Fs] structs, [treemaps] the heap of [trees]
    maps (a struct copy shares its map), [dials] the dial cache, [muxes] the
    muxes with the hangup watcher waiting on each, [waits] the close-wait
    channels with whether they are closed. *)
Record Mux := MkMux {
  mx_closed : bool;
  mx_watch : option (nat * nat)
}.

Record World := MkWorld {
  handles : gmap nat Fs;
  treemaps : gmap nat (gset string);
  dials : gmap string nat;
  muxes : gmap nat Mux;
  waits : gmap nat bool
}.

Definition set_handles (f : gmap nat Fs -> gmap nat Fs) (w : World) : World :=
  MkWorld (f (handles w)) (treemaps w) (dials w) (muxes w) (waits w).
Definition set_treemaps (f : gmap nat (gset string) -> gmap nat (gset string))
    (w : World) : World :=
  MkWorld (handles w) (f (treemaps w)) (dials w) (muxes w) (waits w).
Definition set_dials (f : gmap string nat -> gmap string nat) (w : World) : World :=
  MkWorld (handles w) (treemaps w) (f (dials w)) (muxes w) (waits w).
Definition set_muxes (f : gmap nat Mux -> gmap nat Mux) (w : World) : World :=
  MkWorld (handles w) (treemaps w) (dials w) (f (muxes w)) (waits w).
Definition set_waits (f : gmap nat bool -> gmap nat bool) (w : World) : World :=
  MkWorld (handles w) (treemaps w) (dials w) (muxes w) (f (waits w)).

(** Field updates through a handle pointer. *)
Definition set_ai (v : option nat) (fs : Fs) : Fs :=
  MkFs (Verb fs) (addr fs) (raddr fs) (tc fs) v (trees fs) (fsys fs) (m fs)
       (closed fs) (closewc fs).
Definition set_m (v : option nat) (fs : Fs) : Fs :=
  MkFs (Verb fs) (addr fs) (raddr fs) (tc fs) (ai fs) (trees fs) (fsys fs) v
       (closed fs) (closewc fs).
Definition set_closed (v : bool) (fs : Fs) : Fs :=
  MkFs (Verb fs) (addr fs) (raddr fs) (tc fs) (ai fs) (trees fs) (fsys fs) (m fs)
       v (closewc fs).
Definition set_closewc (v : nat) (fs : Fs) : Fs :=
  MkFs (Verb fs) (addr fs) (raddr fs) (tc fs) (ai fs) (trees fs) (fsys fs) (m fs)
       (closed fs) v.
Definition set_fsys (v : string) (fs : Fs) : Fs :=
  MkFs (Verb fs) (addr fs) (raddr fs) (tc fs) (ai fs) (trees fs) v (m fs)
       (closed fs) (closewc fs).

Definition upd (p : nat) (f : Fs -> Fs) (w : World) : World :=
  set_handles (alter f p) w.

(** [fs.trees] as a set; a nil map has no member. *)
Definition trees_at (w : World) (fs : Fs) : gset string :=
  default ∅ (treemaps w !! trees fs).

(** The body of the hangup watcher that [Redial] starts on handle [p] with
    close-wait channel [wc]. *)
Definition watcher (p wc : nat) (w : World) : World :=
  let w := upd p (set_closed true) w in
  let w := match handles w !! p with
           | Some fs => set_dials (delete (raddr fs)) w
           | None => w
           end in
  set_waits (<[wc := true]>) w.

(** [m.Close()]: the mux is gone and its hangup fires.  The watcher on it
    first takes the lock of its handle; [holder] is the handle whose lock
    the closing goroutine holds, and a watcher on that very handle stays
    where it is. *)
Definition mux_close (holder : option nat) (mid : nat) (w : World) : World :=
  match muxes w !! mid with
  | None => w
  | Some mx =>
      match mx_watch mx with
      | Some (p, wc) =>
          if decide (holder = Some p)
          then set_muxes (<[mid := MkMux true (Some (p, wc))]>) w
          else watcher p wc (set_muxes (<[mid := MkMux true None]>) w)
      | None => set_muxes (<[mid := MkMux true None]>) w
      end
  end.

(** The peer hangs up: as [mux_close] from a goroutine that holds no lock. *)
Definition hangup (mid : nat) (w : World) : World := mux_close None mid w.

(** What the network and the server do during one [Redial]: the error of
    [net.MuxDial] ([None]: it returns a mux), the two results of
    [auth.AtClient], and the call on which [getTrees] runs. *)
Record DialEnv := MkDialEnv {
  env_dial : error;
  env_auth : option nat * error;
  env_trees : Call
}.

(** How a function of the package ends: it returns, or its goroutine is
    stuck for good, or it panics. *)
Inductive Outcome (A : Type) :=
  | Returns (a : A)
  | Stuck
  | Panics.
Arguments Returns {A} a.
Arguments Stuck {A}.
Arguments Panics {A}.

(** [strings.Contains(s, sub)] *)
Fixpoint Contains (s sub : string) : bool :=
  String.prefix sub s ||
  match s with
  | EmptyString => false
  | String _ r => Contains r sub
  end.

(** The first step of [Redial], for a handle that is not closed; [false]
    when the receive on the close-wait channel never returns. *)
Definition redial_teardown (p : nat) (fs : Fs) (w : World) : World * bool :=
  if closed fs then (w, true)
  else
    let '(w, ok) :=
      match m fs with
      | Some mid =>
          let w := mux_close (Some p) mid w in
          (w, default false (waits w !! closewc fs))
      | None => (w, true)
      end in
    if ok then
      let wc := fresh (dom (waits w)) in
      let w := upd p (set_ai None) w in
      let w := upd p (set_closed true) w in
      let w := upd p (set_closewc wc) w in
      (set_waits (<[wc := false]>) w, true)
    else (w, false).

(** [getTrees] on the handle: the writes go to the shared map; a write to
    a nil map panics (reads of it are fine). *)
Definition getTrees_at (fs : Fs) (c : Call) (w : World)
    : World * Outcome error :=
  let '(ts, _, r) := getTrees c (trees_at w fs) in
  match treemaps w !! trees fs with
  | None =>
      if decide (ts = ∅)
      then (w, match r with Some e => Returns e | None => Stuck end)
      else (w, Panics)
  | Some _ =>
      (set_treemaps (<[trees fs := ts]>) w,
       match r with Some e => Returns e | None => Stuck end)
  end.

Definition Redial (p : nat) (env : DialEnv) (w : World) : World * Outcome error :=
  match handles w !! p with
  | None => (w, Panics)
  | Some fs =>
    let '(w, ok) := redial_teardown p fs w in
    if negb ok then (w, Stuck)
    else
      match env_dial env with
      | Some e => (w, Returns (Some e))
      | None =>
        let mid := fresh (dom (muxes w)) in
        let w := set_muxes (<[mid := MkMux false None]>) w in
        let '(ai', aerr) := env_auth env in
        let fatal := match aerr with
                     | Some e => negb (Contains e "auth disabled")
                     | None => false
                     end in
        if fatal then
          (mux_close (Some p) mid w,
           Returns (Some (addr fs ++ ": " ++ default "" aerr)))
        else
          let w := upd p (set_ai ai') w in
          let w := upd p (set_m (Some mid)) w in
          let '(w, r) := getTrees_at fs (env_trees env) w in
          match r with
          | Stuck => (w, Stuck)
          | Panics => (w, Panics)
          | Returns err =>
            let w := upd p (set_ai None) w in
            let w := upd p (set_m None) w in
            match err with
            | Some e => (mux_close (Some p) mid w, Returns (Some e))
            | None =>
              if negb (bool_decide (fsys fs ∈ trees_at w fs)) then
                (mux_close (Some p) mid w,
                 Returns (Some ("no fsys '" ++ fsys fs ++ "' found in server")))
              else
                let w := upd p (set_ai ai') w in
                let w := upd p (set_m (Some mid)) w in
                let w := upd p (set_closed false) w in
                let w := set_dials (<[raddr fs := p]>) w in
                let wc := default 0 (closewc <$> handles w !! p) in
                let w := set_muxes (<[mid := MkMux false (Some (p, wc))]>) w in
                (w, Returns None)
            end
          end
      end
  end.

(** [Close]: a handle without mux makes it panic. *)
Definition Close (p : nat) (w : World) : World * Outcome error :=
  match handles w !! p with
  | None => (w, Panics)
  | Some fs =>
      match m fs with
      | Some mid => (mux_close None mid w, Returns None)
      | None => (w, Panics)
      end
  end.

(** [dialed] *)
Definition dialed (a : string) (w : World) : option nat := dials w !! a.

(** A pointer for a new [Fs]: one that no handle and no cache entry has. *)
Definition new_handle (w : World) : nat :=
  fresh (dom (handles w) ∪ map_img (dials w)).

(** The handle that [Dial] makes after a cache miss, at a pointer of its
    own: closed, with an empty trees map and a new close-wait channel. *)
Definition dial_alloc (ra ad fsname : string) (tc : option nat) (w : World)
    : World * nat * Fs :=
  let t := fresh (dom (treemaps w)) in
  let wc := fresh (dom (waits w)) in
  let p := new_handle w in
  let fs := MkFs false ad ra tc None t fsname None true wc in
  let w := set_treemaps (<[t := ∅]>) w in
  let w := set_waits (<[wc := false]>) w in
  (set_handles (<[p := fs]>) w, p, fs).

(** [Dial]; [tlscfg] are the variadic arguments, each a pointer or nil. *)
Definition Dial (a : string) (tlscfg : list (option nat)) (env : DialEnv)
    (w : World) : World * Outcome (option nat * error) :=
  let tc := match tlscfg with c :: _ => c | [] => None end in
  let a := Addr.FillAddr a in
  match dialed a w with
  | Some p => (w, Returns (Some p, None))
  | None =>
      match Addr.splitaddr a with
      | None => (w, Panics)
      | Some (ad, fsname) =>
          let '(w, p, _) := dial_alloc a ad fsname tc w in
          match Redial p env w with
          | (w, Returns (Some e)) => (w, Returns (None, Some e))
          | (w, Returns None) => (w, Returns (Some p, None))
          | (w, Stuck) => (w, Stuck)
          | (w, Panics) => (w, Panics)
          end
      end
  end.

(** [Trees] *)
Definition Trees (p : nat) (w : World) : Outcome (list string) :=
  match handles w !! p with
  | None => Panics
  | Some fs => Returns (Trees_of (trees_at w fs))
  end.

(** [Fsys]: the struct copy lives at a pointer of its own and shares
    everything the fields point to.  When the test fails nothing refers to
    the copy: it is left out of the heap. *)
Definition Fsys (p : nat) (name : string) (w : World)
    : World * Outcome (option nat * error) :=
  match handles w !! p with
  | None => (w, Panics)
  | Some fs =>
      let q := new_handle w in
      let nfs := set_fsys name fs in
      if String.eqb name "main" || bool_decide (name ∈ trees_at w fs)
      then (set_handles (<[q := nfs]>) w, Returns (Some q, None))
      else (w, Returns (None, Some ("no fsys '" ++ name ++ "'")))
  end.

(** ** The operations, as one type

    One constructor per exported operation of a handle that runs an
    envelope, with the arguments of the Go method. *)
Inductive Request :=
  | RStat (p : string)
  | RWstat (p : string) (d : Dir)
  | RRemove (p : string)
  | RRemoveAll (p : string)
  | RMove (from to : string)
  | RLink (oldp newp : string)
  | RGet (p : string) (off count : Z)
  | RPut (p : string) (d : Dir) (off : Z) (dc : option Chan)
  | RFind (p fpred spref dpref : string) (depth0 : Z)
  | RFindGet (p fpred spref dpref : string) (depth0 : Z).

Definition run (fs : Fs) (c : Call) (caller : Caller) (r : Request) : Envelope :=
  match r with
  | RStat p => Stat fs c caller p
  | RWstat p d => Wstat fs c caller p d
  | RRemove p => Remove fs c caller p
  | RRemoveAll p => RemoveAll fs c caller p
  | RMove from to => Move fs c caller from to
  | RLink oldp newp => Link fs c caller oldp newp
  | RGet p off count => Get fs c caller p off count
  | RPut p d off dc => p_env (Put fs c caller p d off dc)
  | RFind p fpred spref dpref depth0 => Find fs c caller p fpred spref dpref depth0
  | RFindGet p fpred spref dpref depth0 =>
      FindGet fs c caller p fpred spref dpref depth0
  end.

(** The error-only operations. *)
Definition errop (r : Request) : bool :=
  match r with
  | RRemove _ | RRemoveAll _ | RMove _ _ | RLink _ _ => true
  | _ => false
  end.

(** The outbound half takes no message: it is closed, by the mux or by
    anyone else. *)
Definition rejects (c : Chan) : Prop := ch_closed (Ch.settle c) = true.
Definition accepts (c : Chan) : Prop := ch_closed (Ch.settle c) = false.

(** The names a reply stream lists before its first message that is not a
    string. *)
Fixpoint names_of (msgs : list Val) : gset string :=
  match msgs with
  | VStr s :: r => {[s]} ∪ names_of r
  | _ => ∅
  end.

Definition is_str (v : Val) : bool :=
  match v with VStr _ => true | _ => false end.

(** ** Sample states

    A closed handle on tree [work] of [tcp!h!zx] with an empty trees map, as
    [Dial] makes it; calls whose reply is complete, and calls on a mux that
    is gone. *)
Definition fs_work : Fs :=
  MkFs false "tcp!h!zx" "tcp!h!zx!work" None None 0 "work" None true 0.

Definition w_work : World :=
  MkWorld {[0 := fs_work]} {[0 := ∅]} ∅ ∅ {[0 := false]}.

Definition w_empty : World := MkWorld ∅ ∅ ∅ ∅ ∅.

(** The same handle after a successful [Redial]: open on mux [0], in the
    cache, its watcher waiting. *)
Definition fs_open : Fs :=
  MkFs false "tcp!h!zx" "tcp!h!zx!work" None None 0 "work" (Some 0) false 0.


Definition call_reply (msgs : list Val) (e : error) : Call :=
  MkCall (Ch.make None) (MkChan msgs true e None 0).

Definition call_down (e : Err) : Call :=
  MkCall (MkChan [] true (Some e) None 0) (Ch.make None).

Definition env_serving (auth : option nat * error) (names : list string)
    : DialEnv :=
  MkDialEnv None auth (call_reply (VStr <$> names) None).

Definition dir_d : Dir := {["type" := "d"]}.

(** A data channel on which the caller has queued two bytes and that it has
    not closed. *)
Definition dc_pending : Chan :=
  MkChan [VBytes [x68; x69]%byte] false None None 0.

(** ** Predicates used in the statements *)




(** A request that streams no data of the caller's: every one but a [Put]
    of something that is no directory with a data channel. *)
Definition no_data (r : Request) : Prop :=
  match r with
  | RPut _ d _ (Some _) => dir_get d "type" = "d"
  | _ => True
  end.

(** The invariant of an open handle: its tree and ["main"] are known. *)
Definition handle_ok (w : World) (fs : Fs) : Prop :=
  closed fs = false -> fsys fs ∈ trees_at w fs /\ "main" ∈ trees_at w fs.

(** Every handle of the heap satisfies it. *)
Definition world_ok (w : World) : Prop :=
  forall p fs, handles w !! p = Some fs -> handle_ok w fs.

(** A step that opens no handle and only adds to the trees maps. *)
Definition grows (w w' : World) : Prop :=
  (forall t, default ∅ (treemaps w !! t) ⊆ default ∅ (treemaps w' !! t)) /\
  (forall q fs', handles w' !! q = Some fs' ->
     exists fs, handles w !! q = Some fs /\
                fsys fs' = fsys fs /\ trees fs' = trees fs /\
                (closed fs' = false -> closed fs = false)).

(** A field update that keeps the tree and opens nothing. *)
Definition quiet (f : Fs -> Fs) : Prop :=
  forall fs, fsys (f fs) = fsys fs /\ trees (f fs) = trees fs /\
             (closed (f fs) = false -> closed fs = false).

(** A mux whose outbound half rejects a message says why. *)
Definition rejects_with_error (c : Call) : Prop :=
  rejects (Out c) -> Ch.cerror (Out c) <> None.

(** ** Predicates used in the further statements *)

(** The authentication exchange lets [Redial] go on. *)
Definition auth_passes (r : option nat * error) : Prop :=
  forall e, r.2 = Some e -> Contains e "auth disabled" = true.





(** A result channel that holds [b] and that its caller closes with reason
    [e] once it has taken [k] more values. *)
Definition sink (b : list Val) (k : nat) (e : error) : Chan :=
  Ch.settle (MkChan b false None (Some (k, e)) 0).

(** The operations with a single directory entry as reply. *)
Definition is_single (r : Request) : bool :=
  match r with
  | RStat _ | RWstat _ _ | RPut _ _ _ _ => true
  | _ => false
  end.

(** The message at the head of a channel; the zero value when there is
    none. *)
Definition head_msg (c : Chan) : Val :=
  match ch_buf c with v :: _ => v | [] => VNil end.

(** * Properties *)

(** ** The address resolver *)

Section AddrFacts.
Import Addr.

Lemma append_assoc (s t u : string) : (s ++ t) ++ u = s ++ t ++ u.
Proof.
  induction s as [|c s IH]; [done|].
  change (String c ((s ++ t) ++ u) = String c (s ++ t ++ u)). by rewrite IH.
Qed.

Lemma Split_not_nil (s : string) : Split s <> [].
Proof.
  destruct s as [|c r]; simpl; [discriminate|].
  destruct (Ascii.eqb c bang); [discriminate|].
  destruct (Split r); discriminate.
Qed.

Lemma Join_cons (t : string) (ts : list string) :
  ts <> [] -> Join (t :: ts) = t ++ "!" ++ Join ts.
Proof. destruct ts; [congruence | reflexivity]. Qed.

Lemma Join_Split (s : string) : Join (Split s) = s.
Proof.
  induction s as [|c r IH]; [reflexivity|].
  simpl. destruct (Ascii.eqb_spec c bang) as [->|Hc].
  - rewrite Join_cons by apply Split_not_nil. simpl. by rewrite IH.
  - pose proof (Split_not_nil r) as Hne.
    destruct (Split r) as [|t ts]; [congruence|].
    destruct ts as [|t' ts'].
    + simpl in *. by rewrite IH.
    + change (Join (String c t :: t' :: ts')) with
        (String c (Join (t :: t' :: ts'))). by rewrite IH.
Qed.

Lemma Split_nobang (s : string) : Forall (fun t => nobang t = true) (Split s).
Proof.
  induction s as [|c r IH]; simpl.
  - by repeat constructor.
  - destruct (Ascii.eqb c bang) eqn:Hc.
    + by constructor.
    + destruct (Split r) as [|t ts]; simpl.
      * repeat constructor. simpl. by rewrite Hc.
      * inversion IH; subst. constructor; [|done]. simpl. by rewrite Hc.
Qed.

(** The pieces of a string are determined by it: splitting what [Join]
    makes of separator-free pieces gives the pieces back. *)
Lemma Split_app_bang (t : string) (r : string) :
  nobang t = true -> Split (t ++ "!" ++ r) = t :: Split r.
Proof.
  induction t as [|c t IH]; simpl; [done|].
  intros [Hc Ht]%andb_prop. apply negb_true_iff in Hc. rewrite Hc.
  by rewrite IH.
Qed.

Lemma Split_single (t : string) : nobang t = true -> Split t = [t].
Proof.
  induction t as [|c t IH]; simpl; [done|].
  intros [Hc Ht]%andb_prop. apply negb_true_iff in Hc. rewrite Hc.
  by rewrite IH.
Qed.

Lemma Split_Join (toks : list string) :
  toks <> [] -> Forall (fun t => nobang t = true) toks ->
  Split (Join toks) = toks.
Proof.
  induction toks as [|t ts IH]; [done|]. intros _ Hall.
  inversion Hall; subst. destruct ts as [|t' ts'].
  - simpl. by apply Split_single.
  - rewrite Join_cons by done. rewrite Split_app_bang by done.
    f_equal. by apply IH.
Qed.

Lemma lastbang_has (s : string) : nobang s = false -> is_Some (lastbang s).
Proof.
  induction s as [|c r IH]; simpl; [done|].
  intros H. destruct (lastbang r) as [[pre suf]|] eqn:Hl; [by eexists|].
  destruct (Ascii.eqb c bang); [by eexists|]. simpl in H.
  destruct (IH H) as [? ?]; discriminate.
Qed.

Lemma nobang_app (s t : string) : nobang (s ++ t) = nobang s && nobang t.
Proof.
  induction s as [|c s IH]; simpl; [done|]. rewrite IH. by rewrite andb_assoc.
Qed.

Lemma FillAddr_has_bang (a : string) : nobang (FillAddr a) = false.
Proof.
  unfold FillAddr. pose proof (Join_Split a) as HJ.
  destruct (Split a) as [|t0 [|t1 [|t2 [|t3 ts]]]] eqn:HS; try reflexivity.
  - by apply Split_not_nil in HS.
  - rewrite nobang_app. simpl. apply andb_false_r.
  - rewrite <- HJ. rewrite !Join_cons by done.
    rewrite nobang_app. simpl. apply andb_false_r.
Qed.

(** [Dial] never reaches the panic of [splitaddr]. *)
Lemma splitaddr_FillAddr (a : string) : is_Some (splitaddr (FillAddr a)).
Proof. apply lastbang_has, FillAddr_has_bang. Qed.

End AddrFacts.

(** C5: every address is the join of its [!]-separated pieces, and
    [FillAddr] goes by their number: one piece [h] gives [tcp!h!zx!main], two
    pieces [h!p] give [tcp!h!p!main], three pieces [n!h!p] give [n!h!p!main],
    four or more leave the address as it is. *)
Theorem FillAddr_by_tokens (a : string) :
  exists toks : list string,
    Addr.Split a = toks /\ a = Addr.Join toks /\
    Forall (fun t => Addr.nobang t = true) toks /\
    match toks with
    | [] => False
    | [h] => Addr.FillAddr a = "tcp!" ++ h ++ "!zx!main"
    | [h; p] => Addr.FillAddr a = "tcp!" ++ h ++ "!" ++ p ++ "!main"
    | [n; h; p] => Addr.FillAddr a = n ++ "!" ++ h ++ "!" ++ p ++ "!main"
    | _ => Addr.FillAddr a = a
    end.
Proof.
  exists (Addr.Split a). split; [done|]. split; [by rewrite Join_Split|].
  split; [apply Split_nobang|].
  unfold Addr.FillAddr. pose proof (Join_Split a) as HJ.
  destruct (Addr.Split a) as [|t0 [|t1 [|t2 [|t3 ts]]]] eqn:HS; try done.
  - by apply Split_not_nil in HS.
  - rewrite <- HJ at 1. cbn. by rewrite !append_assoc.
Qed.

(** ** Tree listing and rebinding *)

Lemma new_handle_fresh (w : World) :
  new_handle w ∉ dom (handles w) ∪ (map_img (dials w) : gset nat).
Proof. unfold new_handle. apply is_fresh. Qed.

Lemma StronglySorted_strict (l : list string) :
  StronglySorted String.le l -> NoDup l -> StronglySorted str_lt l.
Proof.
  induction 1 as [|x l Hl IH Hx]; intros Hnd; [constructor|].
  apply NoDup_cons in Hnd as [Hxl Hnd]. constructor; [by apply IH|].
  rewrite Forall_forall in Hx |- *. intros y Hy. split; [by apply Hx|].
  intros ->. by apply Hxl.
Qed.

Lemma Trees_of_perm (ts : gset string) : Trees_of ts ≡ₚ elements ts.
Proof. apply merge_sort_Permutation. Qed.

Lemma Trees_of_elem (ts : gset string) (x : string) : x ∈ Trees_of ts <-> x ∈ ts.
Proof. rewrite Trees_of_perm. apply elem_of_elements. Qed.

Lemma Trees_of_NoDup (ts : gset string) : NoDup (Trees_of ts).
Proof. rewrite Trees_of_perm. apply NoDup_elements. Qed.

Lemma Trees_of_sorted (ts : gset string) : StronglySorted str_lt (Trees_of ts).
Proof.
  apply StronglySorted_strict; [|apply Trees_of_NoDup].
  apply StronglySorted_merge_sort; apply _.
Qed.

(** C10: [Trees] returns the members of the known-trees set and nothing
    else, every name once, in strictly ascending byte order. *)
Theorem Trees_sorted_exact (p : nat) (w : World) (fs : Fs) :
  handles w !! p = Some fs ->
  exists l : list string,
    Trees p w = Returns l /\
    StronglySorted str_lt l /\
    NoDup l /\
    (forall x : string, x ∈ l <-> x ∈ trees_at w fs).
Proof.
  intros Hp. exists (Trees_of (trees_at w fs)). unfold Trees. rewrite Hp.
  split; [done|]. split; [apply Trees_of_sorted|].
  split; [apply Trees_of_NoDup|]. intros x. apply Trees_of_elem.
Qed.

(** C7: [Fsys name] succeeds exactly when [name] is ["main"] or a known
    tree.  It then returns a new handle that is the original with [fsys]
    replaced: the same mux, auth context, trees map and close-wait channel.
    Otherwise it returns no handle and the error [no fsys '<name>'].  Either
    way the original handle and the rest of the state stay as they were. *)
Theorem Fsys_rebinds (p : nat) (name : string) (w : World) (fs : Fs) :
  handles w !! p = Some fs ->
  exists (w' : World) (r : option nat * error),
    Fsys p name w = (w', Returns r) /\
    handles w' !! p = Some fs /\
    treemaps w' = treemaps w /\ dials w' = dials w /\
    muxes w' = muxes w /\ waits w' = waits w /\
    ((name = "main" \/ name ∈ trees_at w fs) <-> r.2 = None) /\
    (r.2 = None ->
       exists (q : nat) (nfs : Fs),
         r.1 = Some q /\ q <> p /\ handles w !! q = None /\
         handles w' !! q = Some nfs /\
         fsys nfs = name /\ m nfs = m fs /\ ai nfs = ai fs /\
         trees nfs = trees fs /\ closewc nfs = closewc fs /\
         closed nfs = closed fs /\ addr nfs = addr fs /\
         raddr nfs = raddr fs /\ tc nfs = tc fs /\ Verb nfs = Verb fs) /\
    (r.2 <> None ->
       r = (None, Some ("no fsys '" ++ name ++ "'"))).
Proof.
  intros Hp. unfold Fsys. rewrite Hp.
  pose proof (new_handle_fresh w) as Hq.
  assert (Hqp : new_handle w <> p).
  { intros Heq. apply Hq. apply elem_of_union_l, elem_of_dom. rewrite Heq. eauto. }
  assert (Hqn : handles w !! new_handle w = None).
  { apply not_elem_of_dom. set_solver. }
  destruct (String.eqb name "main" || bool_decide (name ∈ trees_at w fs)) eqn:Hc.
  - eexists _, _. split; [reflexivity|]. simpl.
    rewrite lookup_insert_ne by done. repeat (split; [done|]).
    split; [|split; [|done]].
    + split; [done|]. intros _. apply orb_true_iff in Hc as [Hc|Hc].
      * left. by apply String.eqb_eq.
      * right. by apply bool_decide_eq_true in Hc.
    + intros _. exists (new_handle w), (set_fsys name fs).
      rewrite lookup_insert_eq. by repeat (split; [done|]).
  - eexists _, _. split; [reflexivity|]. simpl.
    repeat (split; [done|]).
    split; [|split; [done|done]].
    split; [|done]. apply orb_false_iff in Hc as [Hc1 Hc2].
    intros [->|Hin]; [done|]. by apply bool_decide_eq_false in Hc2.
Qed.

(** ** Channels *)

(** Case analysis on what decides a channel operation: whether the channel
    is closed and what is left of the peer's quota. *)
Ltac chan_cases c :=
  let b := fresh "b" in let cl := fresh "cl" in let e := fresh "e" in
  let q := fresh "q" in let n := fresh "n" in
  let k := fresh "k" in let e' := fresh "e'" in
  destruct c as [b cl e q n]; destruct cl; destruct q as [[[|[|k]] e']|].

Lemma settle_closed (c : Chan) : ch_closed c = true -> Ch.settle c = c.
Proof. unfold Ch.settle. by intros ->. Qed.

Lemma settle_idem (c : Chan) : Ch.settle (Ch.settle c) = Ch.settle c.
Proof. by chan_cases c. Qed.

Lemma send_rejected (c : Chan) (v : Val) :
  rejects c -> Ch.send c v = (Ch.settle c, false).
Proof. unfold rejects, Ch.send. by intros ->. Qed.

Lemma send_accepted (c : Chan) (v : Val) :
  accepts c -> exists c', Ch.send c v = (c', true) /\
    ch_buf c' = (ch_buf c ++ [v])%list /\ ch_ncloses c' = ch_ncloses c.
Proof.
  unfold accepts. chan_cases c; cbn; intros H; try discriminate H;
    eexists; (split; [reflexivity|done]).
Qed.

Lemma accepts_or_rejects (c : Chan) : accepts c \/ rejects c.
Proof. unfold accepts, rejects. destruct (ch_closed (Ch.settle c)); auto. Qed.

Lemma recv_cerror (c : Chan) (v : Val) (ok : bool) (c' : Chan) :
  Ch.recv c = Some (v, ok, c') -> Ch.cerror c' = Ch.cerror c.
Proof.
  chan_cases c; destruct b; cbn; intros H; try discriminate H;
    by injection H as <- <- <-.
Qed.

Lemma close_closed (c : Chan) (e : error) : ch_closed (Ch.close c e) = true.
Proof. by chan_cases c. Qed.

Lemma cerror_close (c : Chan) (e : error) :
  Ch.cerror (Ch.close c e) = if ch_closed (Ch.settle c) then Ch.cerror c else e.
Proof. by chan_cases c. Qed.

(** Closing a channel with its own [cerror] leaves that reason in place. *)
Lemma cerror_close_self (c : Chan) :
  Ch.cerror (Ch.close c (Ch.cerror c)) = Ch.cerror c.
Proof. by chan_cases c. Qed.

Lemma cerror_settle (c : Chan) : Ch.cerror (Ch.settle c) = Ch.cerror c.
Proof. by chan_cases c. Qed.

(** ** Envelopes *)

(** C1, at the outcome where the code departs from it: when the outbound
    half rejects the request, every envelope returns with the result
    channel as [make] left it.  No [close] is called on it and nothing is
    delivered, so a caller that reads it waits for ever; only the inbound
    half is closed, with the outbound half's error. *)
Theorem send_failure_leaves_rc_open (fs : Fs) (c : Call) (caller : Caller)
    (r : Request) :
  rejects (Out c) ->
  e_rc (run fs c caller r) = Ch.make caller /\
  ch_ncloses (e_rc (run fs c caller r)) = 0 /\
  ch_closed (e_rc (run fs c caller r)) = false /\
  ch_buf (e_rc (run fs c caller r)) = [] /\
  e_blocked (run fs c caller r) = false /\
  e_in (run fs c caller r) = Ch.close (In c) (Ch.cerror (Out c)).
Proof.
  intros Hrej.
  assert (H : e_rc (run fs c caller r) = Ch.make caller /\
              e_blocked (run fs c caller r) = false /\
              e_in (run fs c caller r) = Ch.close (In c) (Ch.cerror (Out c))).
  { destruct r; cbn [run];
      unfold Stat, Wstat, Remove, RemoveAll, Move, Link, Get, Put, Find, FindGet,
        dircall, errcall;
      rewrite (send_rejected _ _ Hrej); cbn [negb];
      try (destruct (put_store _ _ _)); cbn [p_env e_rc e_blocked e_in];
      by rewrite cerror_settle. }
  destruct H as (Hrc & Hb & Hin). rewrite Hrc. by repeat split.
Qed.

Lemma errcall_reply (c : Call) (msg : Msg) :
  accepts (Out c) -> is_Some (Ch.recv (In c)) ->
  e_rc (errcall c None msg) =
    MkChan [VErr (Ch.cerror (In c))] true (Ch.cerror (In c)) None 1 /\
  e_blocked (errcall c None msg) = false /\
  ch_closed (e_in (errcall c None msg)) = true /\
  Ch.cerror (e_in (errcall c None msg)) = Ch.cerror (In c).
Proof.
  intros Hacc [[[x ok] inc] Hrecv]. unfold errcall.
  destruct (send_accepted _ (VMsg msg) Hacc) as (out & -> & _ & _).
  cbn [negb]. rewrite Hrecv. cbn [e_rc e_blocked e_in].
  pose proof (recv_cerror _ _ _ _ Hrecv) as Hce.
  rewrite close_closed, cerror_close, Hce.
  split; [reflexivity|]. by destruct (ch_closed (Ch.settle inc)).
Qed.

(** C9: an error-only operation whose request the outbound half accepts,
    whose inbound half answers (a message or its close) and whose caller
    leaves the closing of [rc] to the envelope, delivers one value on [rc],
    the terminal error of the inbound half ([nil] on success), and then
    closes [rc], once, with that same error; the inbound half ends closed
    with it too. *)
Theorem errop_delivers_terminal_error (fs : Fs) (c : Call) (r : Request) :
  errop r = true ->
  accepts (Out c) ->
  is_Some (Ch.recv (In c)) ->
  e_rc (run fs c None r) =
    MkChan [VErr (Ch.cerror (In c))] true (Ch.cerror (In c)) None 1 /\
  e_blocked (run fs c None r) = false /\
  ch_closed (e_in (run fs c None r)) = true /\
  Ch.cerror (e_in (run fs c None r)) = Ch.cerror (In c).
Proof.
  intros Hop Hacc Hrecv.
  destruct r; try discriminate Hop; cbn [run];
    unfold Remove, RemoveAll, Move, Link; by apply errcall_reply.
Qed.

Lemma close_buf (c : Chan) (e : error) : ch_buf (Ch.close c e) = ch_buf c.
Proof. by chan_cases c. Qed.

Lemma rest_closed (c : Chan) (r : list Val) :
  ch_closed (Ch.settle (Ch.rest c r)) = ch_closed (Ch.settle c).
Proof. by chan_cases c. Qed.

Lemma rest_cerror (c : Chan) (r : list Val) :
  Ch.cerror (Ch.rest c r) = Ch.cerror c.
Proof. by chan_cases c. Qed.

Lemma put_reply_out (out inc rc : Chan) : e_out (put_reply out inc rc) = out.
Proof.
  unfold put_reply. destruct (Ch.recv inc) as [[[x ok] inc']|]; [|done].
  destruct (Ch.cerror inc'); [done|]. by destruct x.
Qed.

(** C8, as the code has it: in a [Put] of a directory entry the envelope
    does not touch the caller's data channel, supplied or not: it neither
    closes it nor receives from it.  The goroutine's own variable is rebound
    to a new channel that is closed at once, before the header is sent.
    When the header is accepted the outbound half is closed right after it
    and holds the header and no byte chunk; when it is rejected nothing is
    sent. *)
Theorem Put_dir_ignores_dc (fs : Fs) (c : Call) (caller : Caller) (p : string)
    (d : Dir) (off : Z) (dc : option Chan) :
  dir_get d "type" = "d" ->
  p_dc (Put fs c caller p d off dc) = dc /\
  p_own (Put fs c caller p d off dc) = Some (MkChan [] true None None 1) /\
  (accepts (Out c) ->
     ch_closed (e_out (p_env (Put fs c caller p d off dc))) = true /\
     ch_buf (e_out (p_env (Put fs c caller p d off dc))) =
       (ch_buf (Out c) ++
        [VMsg (MkMsg Tput (fsys fs) p "" (Some d) off 0 "" "" "" 0)])%list) /\
  (rejects (Out c) ->
     e_out (p_env (Put fs c caller p d off dc)) = Ch.settle (Out c)).
Proof.
  intros Hd. unfold Put. rewrite Hd. cbn [String.eqb Ascii.eqb Bool.eqb].
  assert (Hreb : match dc with Some _ => true | None => true end = true)
    by by destruct dc.
  rewrite Hreb. cbn [put_store].
  destruct (accepts_or_rejects (Out c)) as [Hacc|Hrej].
  - destruct (send_accepted _
      (VMsg (MkMsg Tput (fsys fs) p "" (Some d) off 0 "" "" "" 0)) Hacc)
      as (out & -> & Hbuf & _).
    cbn [negb p_dc p_own p_env]. split; [done|]. split; [done|]. split.
    + intros _. rewrite put_reply_out, close_closed, close_buf. done.
    + unfold rejects, accepts in *. congruence.
  - rewrite (send_rejected _ _ Hrej). cbn [negb p_dc p_own p_env e_out].
    split; [done|]. split; [done|]. split; [|done].
    unfold rejects, accepts in *. congruence.
Qed.

(** ** The outcomes in which the envelopes do close [rc] *)












Lemma dircall_reply (c : Call) (caller : Caller) (msg : Msg) (out : Chan) :
  Ch.send (Out c) (VMsg msg) = (out, true) ->
  dircall c caller msg = put_reply (Ch.close out None) (In c) (Ch.make caller).
Proof. intros Hs. unfold dircall, put_reply. rewrite Hs. by cbn [negb]. Qed.


(** [Put] does close [rc] when the outbound half rejects a chunk of data
    after it took the header: the path beside the one that forgets it. *)
Lemma Put_chunk_rejected_closes_rc :
  e_rc (p_env (Put fs_work
                 (MkCall (MkChan [] false None (Some (1, Some "i/o error")) 0)
                         (Ch.make None))
                 None "/f" ∅ 0 (Some (MkChan [VBytes [x68%byte]] true None None 0))))
  = MkChan [] true (Some "i/o error") None 1.
Proof. by vm_compute. Qed.

(** [Get] calls [close] on [rc] twice when a message that is no byte chunk
    arrives; the second call changes nothing. *)
Lemma Get_bad_message_closes_twice :
  e_rc (Get fs_work (call_reply [VBytes []; VStr "x"] (Some "eof")) None "/f" 0 0)
  = MkChan [VBytes []] true (Some ErrBadMsg) None 2.
Proof. by vm_compute. Qed.

(** ** Tree discovery *)

Lemma range_trees_body (msgs : list Val) (inc : Chan) (ts : gset string) :
  (forallb is_str msgs = true ->
     range trees_body msgs inc (ts, false) =
       (Ch.rest inc [], (names_of msgs ∪ ts, false), Drained)) /\
  (forallb is_str msgs = false ->
     exists inc', range trees_body msgs inc (ts, false) =
       (inc', (names_of msgs ∪ ts, true), Broke)).
Proof.
  revert inc ts. induction msgs as [|v msgs IH]; intros inc ts.
  - split; [|done]. intros _. cbn. by rewrite (left_id_L ∅ (∪)).
  - destruct v; cbn [range trees_body forallb is_str names_of andb fst].
    3: { destruct (IH (Ch.rest inc msgs) ({[s]} ∪ ts)) as [IH1 IH2].
         assert (Hts : names_of msgs ∪ ({[s]} ∪ ts) = {[s]} ∪ names_of msgs ∪ ts).
         { by rewrite (assoc_L (∪)), (comm_L (∪) (names_of msgs)). }
         split.
         - intros H. rewrite (IH1 H), Hts. by destruct inc.
         - intros H. destruct (IH2 H) as [inc' ->]. rewrite Hts. by eexists. }
    all: split; [done|]; intros _; eexists; by rewrite (left_id_L ∅ (∪)).
Qed.

(** C6, as the code has it: [getTrees] adds ["main"] when the request was
    accepted and the reply stream was read to its close with only strings in
    it, also when that close carries a terminal error.  When the request is
    rejected it returns the outbound half's error and leaves the set as it
    was; when a message that is not a string arrives it returns [ErrBadMsg]
    and the set has only gained the names received before it; when the
    stream is never closed it does not return. *)
Theorem getTrees_adds_main (c : Call) (ts : gset string) :
  (accepts (Out c) -> forallb is_str (ch_buf (In c)) = true ->
   ch_closed (Ch.settle (In c)) = true ->
     (getTrees c ts).1.1 = {["main"]} ∪ names_of (ch_buf (In c)) ∪ ts /\
     (getTrees c ts).2 = Some (Ch.cerror (In c))) /\
  (rejects (Out c) ->
     (getTrees c ts).1.1 = ts /\
     (getTrees c ts).2 = Some (Ch.cerror (Out c))) /\
  (accepts (Out c) -> forallb is_str (ch_buf (In c)) = false ->
     (getTrees c ts).1.1 = names_of (ch_buf (In c)) ∪ ts /\
     (getTrees c ts).2 = Some (Some ErrBadMsg)) /\
  (accepts (Out c) -> forallb is_str (ch_buf (In c)) = true ->
   ch_closed (Ch.settle (In c)) = false ->
     (getTrees c ts).1.1 = names_of (ch_buf (In c)) ∪ ts /\
     (getTrees c ts).2 = None).
Proof.
  unfold getTrees.
  destruct (range_trees_body (ch_buf (In c)) (In c) ts) as [Hs Hb].
  assert (Hacc : accepts (Out c) -> exists out,
            Ch.send (Out c) (VMsg (msg0 Ttrees "main" "")) = (out, true)).
  { intros H. destruct (send_accepted _ (VMsg (msg0 Ttrees "main" "")) H)
      as (out & Hsend & _). eauto. }
  split; [|split; [|split]].
  - intros Ha Hstr Hcl. destruct (Hacc Ha) as [out ->]. cbn [negb].
    rewrite (Hs Hstr). rewrite rest_closed, Hcl. cbn [negb fst snd].
    by rewrite rest_cerror, (assoc_L (∪)).
  - intros Hr. rewrite (send_rejected _ _ Hr). cbn [negb fst snd].
    by rewrite cerror_settle.
  - intros Ha Hstr. destruct (Hacc Ha) as [out ->]. cbn [negb].
    by destruct (Hb Hstr) as [inc' ->].
  - intros Ha Hstr Hcl. destruct (Hacc Ha) as [out ->]. cbn [negb].
    rewrite (Hs Hstr). by rewrite rest_closed, Hcl.
Qed.

(** ** Redial and the dial cache *)

Lemma teardown_closed (p : nat) (fs : Fs) (w : World) :
  closed fs = true -> redial_teardown p fs w = (w, true).
Proof. unfold redial_teardown. by intros ->. Qed.

(** Closing a mux on which no watcher waits only marks it closed. *)
Lemma mux_close_unwatched (h : option nat) (mid : nat) (w : World) (b : bool) :
  muxes w !! mid = Some (MkMux b None) ->
  mux_close h mid w = set_muxes (<[mid := MkMux true None]>) w.
Proof. unfold mux_close. by intros ->. Qed.

Lemma getTrees_at_frame (fs : Fs) (c : Call) (w w' : World) (r : Outcome error) :
  getTrees_at fs c w = (w', r) ->
  handles w' = handles w /\ dials w' = dials w /\ muxes w' = muxes w /\
  waits w' = waits w.
Proof.
  unfold getTrees_at. destruct (getTrees c (trees_at w fs)) as [[ts c'] o].
  destruct (treemaps w !! trees fs); [|destruct (decide (ts = ∅))];
    by intros [= <- <-].
Qed.

(** What [getTrees_at] returns when the handle has a map. *)
Lemma getTrees_at_Some (fs : Fs) (c : Call) (w : World) (T : gset string) :
  treemaps w !! trees fs = Some T ->
  getTrees_at fs c w =
    (set_treemaps (<[trees fs := (getTrees c T).1.1]>) w,
     match (getTrees c T).2 with Some e => Returns e | None => Stuck end).
Proof.
  intros HT. unfold getTrees_at, trees_at. rewrite HT.
  change (default ∅ (Some T)) with T.
  by destruct (getTrees c T) as [[ts c'] o].
Qed.

(** [getTrees] only adds to the set. *)
Lemma getTrees_mono (c : Call) (ts : gset string) : ts ⊆ (getTrees c ts).1.1.
Proof.
  unfold getTrees.
  destruct (Ch.send (Out c) (VMsg (msg0 Ttrees "main" ""))) as [out [|]];
    cbn [negb]; [|done].
  destruct (range_trees_body (ch_buf (In c)) (In c) ts) as [Hs Hb].
  destruct (forallb is_str (ch_buf (In c))).
  - rewrite (Hs eq_refl). cbn [negb].
    destruct (ch_closed (Ch.settle (Ch.rest (In c) []))); cbn [negb fst].
    + etrans; [|apply union_subseteq_r]. apply union_subseteq_r.
    + apply union_subseteq_r.
  - destruct (Hb eq_refl) as [inc' ->]. cbn [fst]. apply union_subseteq_r.
Qed.

Lemma upd_lookup (p : nat) (f : Fs -> Fs) (w : World) :
  handles (upd p f w) !! p = f <$> handles w !! p.
Proof. unfold upd. cbn. apply lookup_alter_eq. Qed.

(** [Redial] on a closed handle: the cache gets the handle when [Redial]
    returns nil, and is left alone otherwise. *)
Lemma Redial_closed_cache (p : nat) (env : DialEnv) (w w' : World) (fs : Fs)
    (r : Outcome error) :
  handles w !! p = Some fs -> closed fs = true ->
  Redial p env w = (w', r) ->
  (r = Returns None /\ dials w' = <[raddr fs := p]> (dials w) /\
   exists fs', handles w' !! p = Some fs' /\ closed fs' = false /\
     ai fs' = (env_auth env).1 /\ m fs' = Some (fresh (dom (muxes w))) /\
     fsys fs' = fsys fs /\ raddr fs' = raddr fs) \/
  (r <> Returns None /\ dials w' = dials w).
Proof.
  intros Hp Hc HR. unfold Redial in HR.
  rewrite Hp, (teardown_closed _ _ _ Hc) in HR. cbn [negb] in HR.
  destruct (env_dial env) as [e|]; [right; by injection HR as <- <-|].
  destruct (env_auth env) as [a aerr]. cbn [fst].
  set (mid := fresh (dom (muxes w))) in *.
  set (w1 := set_muxes (<[mid := MkMux false None]>) w) in *.
  assert (Hm1 : muxes w1 !! mid = Some (MkMux false None))
    by apply lookup_insert_eq.
  match type of HR with (if ?b then _ else _) = _ => destruct b end.
  { rewrite (mux_close_unwatched _ _ _ _ Hm1) in HR. right.
    by injection HR as <- <-. }
  destruct (getTrees_at fs (env_trees env) _) as [w2 r2] eqn:HG.
  apply getTrees_at_frame in HG as (Hh & Hd & Hm & Hw).
  cbn in Hh, Hd, Hm, Hw.
  destruct r2 as [[e|]| |]; try (right; injection HR as <- <-; split; [done|];
    try rewrite (mux_close_unwatched _ mid _ false) by (cbn; by rewrite Hm);
    by cbn).
  match type of HR with (if ?b then _ else _) = _ => destruct b end.
  { right. injection HR as <- <-. split; [done|].
    rewrite (mux_close_unwatched _ mid _ false) by (cbn; by rewrite Hm).
    by cbn. }
  left. injection HR as <- <-. split; [done|]. cbn. rewrite Hd. split; [done|].
  eexists. split.
  { rewrite !lookup_alter_eq, Hh, !lookup_alter_eq, Hp. reflexivity. }
  by cbn.
Qed.

Lemma mux_close_dom (h : option nat) (mid : nat) (w : World) :
  dom (handles (mux_close h mid w)) = dom (handles w).
Proof.
  unfold mux_close. destruct (muxes w !! mid) as [mx|]; [|done].
  destruct (mx_watch mx) as [[q wc]|]; [|done].
  destruct (decide (h = Some q)); [done|].
  unfold watcher. cbn.
  destruct (alter (set_closed true) q (handles w) !! q); cbn;
    apply dom_alter_L.
Qed.

(** The handle that [Redial] works on is still there after its first
    step. *)
Lemma teardown_keeps_handle (p : nat) (fs : Fs) (w w1 : World) (ok : bool) :
  is_Some (handles w !! p) ->
  redial_teardown p fs w = (w1, ok) ->
  is_Some (handles w1 !! p).
Proof.
  intros Hp. unfold redial_teardown.
  destruct (closed fs); [by intros [= <- <-]|].
  destruct (m fs) as [mid|].
  - assert (Hp' : is_Some (handles (mux_close (Some p) mid w) !! p)).
    { apply elem_of_dom. rewrite mux_close_dom. by apply elem_of_dom. }
    destruct (default false _); intros [= <- <-]; [|done].
    cbn. apply elem_of_dom. rewrite !dom_alter_L. by apply elem_of_dom.
  - intros [= <- <-]. cbn. apply elem_of_dom. rewrite !dom_alter_L.
    by apply elem_of_dom.
Qed.

(** C2: when the authentication exchange of [Redial] fails with an error
    whose text contains ["auth disabled"], [Redial] goes on exactly as after
    an exchange without error, and a [Redial] that then succeeds leaves in
    the handle the nil context the failed exchange returned.  With any other
    error the new mux is closed and [Redial] returns the error text prefixed
    by the connection address; cache and handles stay as the first step left
    them. *)
Theorem Redial_auth_failure (p : nat) (env : DialEnv) (w w1 : World) (fs : Fs)
    (a : option nat) (e : Err) :
  handles w !! p = Some fs ->
  redial_teardown p fs w = (w1, true) ->
  env_dial env = None ->
  env_auth env = (a, Some e) ->
  (Contains e "auth disabled" = true ->
     Redial p env w = Redial p (MkDialEnv None (a, None) (env_trees env)) w /\
     (a = None -> forall w', Redial p env w = (w', Returns None) ->
        exists fs', handles w' !! p = Some fs' /\ ai fs' = None /\
                    closed fs' = false /\ is_Some (m fs'))) /\
  (Contains e "auth disabled" = false ->
     exists w', Redial p env w = (w', Returns (Some (addr fs ++ ": " ++ e))) /\
       muxes w1 !! fresh (dom (muxes w1)) = None /\
       muxes w' !! fresh (dom (muxes w1)) = Some (MkMux true None) /\
       dials w' = dials w1 /\ handles w' = handles w1).
Proof.
  intros Hp Ht Hd Ha.
  assert (Hnew : muxes w1 !! fresh (dom (muxes w1)) = None).
  { apply not_elem_of_dom, is_fresh. }
  split.
  - intros Hc. split.
    { unfold Redial. rewrite Hp, Ht, Hd, Ha. cbn [negb env_dial env_auth env_trees].
      by rewrite Hc. }
    intros -> w' HR. unfold Redial in HR.
    rewrite Hp, Ht, Hd, Ha in HR. cbn [negb] in HR. rewrite Hc in HR.
    cbn [negb] in HR.
    destruct (getTrees_at fs (env_trees env) _) as [w2 r2] eqn:HG.
    apply getTrees_at_frame in HG as (Hh & _). cbn in Hh.
    destruct r2 as [[e'|]| |]; try discriminate HR.
    match type of HR with (if ?b then _ else _) = _ => destruct b end;
      [discriminate HR|].
    injection HR as <-. cbn.
    destruct (teardown_keeps_handle p fs w w1 true) as [fs1 Hfs1]; [by eauto|done|].
    eexists. split.
    { rewrite !lookup_alter_eq, Hh, !lookup_alter_eq, Hfs1. reflexivity. }
    cbn. eauto.
  - intros Hc. eexists. split.
    { unfold Redial. rewrite Hp, Ht, Hd, Ha. cbn [negb]. rewrite Hc.
      cbn [negb default from_option id]. reflexivity. }
    split; [done|].
    rewrite (mux_close_unwatched _ _ _ false) by apply lookup_insert_eq.
    cbn. by rewrite insert_insert_eq, lookup_insert_eq.
Qed.

(** C3: when tree discovery succeeds and the handle's tree is not in the
    discovered set, [Redial] closes the mux it opened and returns
    [no fsys '<name>' found in server]; the dial cache is as it was, and the
    handle stays closed, without mux and auth context.  (On a handle that is
    not closed the tree is known already, so this is a closed handle.) *)
Theorem Redial_missing_tree (p : nat) (env : DialEnv) (w : World) (fs : Fs)
    (T : gset string) :
  handles w !! p = Some fs ->
  (closed fs = false -> fsys fs ∈ T) ->
  treemaps w !! trees fs = Some T ->
  env_dial env = None ->
  (forall e, (env_auth env).2 = Some e -> Contains e "auth disabled" = true) ->
  (getTrees (env_trees env) T).2 = Some None ->
  fsys fs ∉ (getTrees (env_trees env) T).1.1 ->
  exists w',
    Redial p env w =
      (w', Returns (Some ("no fsys '" ++ fsys fs ++ "' found in server"))) /\
    muxes w !! fresh (dom (muxes w)) = None /\
    muxes w' !! fresh (dom (muxes w)) = Some (MkMux true None) /\
    dials w' = dials w /\
    exists fs', handles w' !! p = Some fs' /\ closed fs' = true /\
                m fs' = None /\ ai fs' = None.
Proof.
  intros Hp Hinv HT Hd Ha Hg Hnin.
  assert (Hc : closed fs = true).
  { destruct (closed fs); [done|]. exfalso. apply Hnin.
    by apply getTrees_mono, Hinv. }
  assert (Hnew : muxes w !! fresh (dom (muxes w)) = None).
  { apply not_elem_of_dom, is_fresh. }
  unfold Redial. rewrite Hp, (teardown_closed _ _ _ Hc), Hd. cbn [negb].
  destruct (env_auth env) as [a aerr] eqn:Hauth.
  assert (Hf : match aerr with
               | Some e => negb (Contains e "auth disabled")
               | None => false
               end = false).
  { destruct aerr as [e|]; [|done]. by rewrite (Ha e eq_refl). }
  rewrite Hf.
  erewrite getTrees_at_Some by (cbn; exact HT). rewrite Hg.
  assert (Hb : forall w0 : World,
    treemaps w0 = <[trees fs := (getTrees (env_trees env) T).1.1]> (treemaps w) ->
    bool_decide (fsys fs ∈ trees_at w0 fs) = false).
  { intros w0 Hw0. apply bool_decide_eq_false. unfold trees_at.
    by rewrite Hw0, lookup_insert_eq. }
  rewrite Hb by done. cbn [negb].
  eexists. split; [reflexivity|]. split; [done|].
  rewrite (mux_close_unwatched _ _ _ false) by (cbn; apply lookup_insert_eq).
  cbn. rewrite insert_insert_eq, lookup_insert_eq.
  split; [done|]. split; [done|].
  eexists. split; [rewrite !lookup_alter_eq, Hp; reflexivity|]. by cbn.
Qed.

Lemma new_handle_not_cached (w : World) (k : string) :
  dials w !! k <> Some (new_handle w).
Proof.
  intros Hk. apply (new_handle_fresh w), elem_of_union_r.
  by apply (elem_of_map_img_2 (dials w) k).
Qed.

Lemma new_handle_unused (w : World) : handles w !! new_handle w = None.
Proof.
  apply not_elem_of_dom. intros H.
  by apply (new_handle_fresh w), elem_of_union_l.
Qed.

(** C4: [Dial] canonicalises the address and returns the cached handle when
    there is one, leaving the state alone.  Otherwise it makes a new handle,
    closed and not in the cache, and calls [Redial] on it: when [Redial]
    fails, [Dial] returns its error and no handle, and the cache is as before
    (the new handle is not in it); when [Redial] succeeds, [Dial] returns the
    handle, now open and in the cache under its raw address, the canonical
    one with the tree. *)
Theorem Dial_cache (a : string) (tlscfg : list (option nat)) (env : DialEnv)
    (w : World) :
  (forall p, dials w !! Addr.FillAddr a = Some p ->
     Dial a tlscfg env w = (w, Returns (Some p, None))) /\
  (dials w !! Addr.FillAddr a = None ->
     exists (ad fsname : string) (w0 : World) (p : nat) (fs : Fs),
     Addr.splitaddr (Addr.FillAddr a) = Some (ad, fsname) /\
     dial_alloc (Addr.FillAddr a) ad fsname
       (match tlscfg with c :: _ => c | [] => None end) w = (w0, p, fs) /\
     handles w !! p = None /\
     (forall k, dials w !! k <> Some p) /\
     handles w0 !! p = Some fs /\ dials w0 = dials w /\
     closed fs = true /\ raddr fs = Addr.FillAddr a /\
     addr fs = ad /\ fsys fs = fsname /\
     (forall w' e, Redial p env w0 = (w', Returns (Some e)) ->
        Dial a tlscfg env w = (w', Returns (None, Some e)) /\
        dials w' = dials w /\ (forall k, dials w' !! k <> Some p)) /\
     (forall w', Redial p env w0 = (w', Returns None) ->
        Dial a tlscfg env w = (w', Returns (Some p, None)) /\
        dials w' = <[Addr.FillAddr a := p]> (dials w) /\
        dials w' !! raddr fs = Some p /\
        exists fs', handles w' !! p = Some fs' /\ closed fs' = false /\
                    raddr fs' = Addr.FillAddr a)).
Proof.
  split.
  - intros p Hhit. unfold Dial, dialed. by rewrite Hhit.
  - intros Hmiss.
    destruct (splitaddr_FillAddr a) as [[ad fsname] Hsp].
    destruct (dial_alloc (Addr.FillAddr a) ad fsname
                (match tlscfg with c :: _ => c | [] => None end) w)
      as [[w0 p] fs] eqn:Hal.
    exists ad, fsname, w0, p, fs.
    assert (HD : Dial a tlscfg env w =
      match Redial p env w0 with
      | (w', Returns (Some e)) => (w', Returns (None, Some e))
      | (w', Returns None) => (w', Returns (Some p, None))
      | (w', Stuck) => (w', Stuck)
      | (w', Panics) => (w', Panics)
      end).
    { unfold Dial, dialed. by rewrite Hmiss, Hsp, Hal. }
    unfold dial_alloc in Hal. injection Hal as <- <- <-.
    set (p := new_handle w) in *.
    match goal with |- context [handles ?W !! p = Some ?F] =>
      set (w0 := W) in *; set (fs := F) in * end.
    assert (Hp0 : handles w0 !! p = Some fs) by apply lookup_insert_eq.
    assert (Hc0 : closed fs = true) by done.
    split; [done|]. split; [done|].
    split; [apply new_handle_unused|].
    split; [apply new_handle_not_cached|].
    do 6 (split; [done|]).
    split.
    + intros w' e HR. rewrite HD, HR. split; [done|].
      destruct (Redial_closed_cache _ _ _ _ _ _ Hp0 Hc0 HR)
        as [(Habs & _)|(_ & Hd)]; [discriminate Habs|].
      rewrite Hd. split; [done|]. apply (new_handle_not_cached w).
    + intros w' HR. rewrite HD, HR. split; [done|].
      destruct (Redial_closed_cache _ _ _ _ _ _ Hp0 Hc0 HR)
        as [(_ & Hd & fs' & Hfs' & Hcl & _ & _ & _ & Hra)|(Habs & _)]; [|done].
      rewrite Hd. split; [done|].
      split; [apply lookup_insert_eq|].
      by exists fs'.
Qed.

(** ** The invariant of open handles *)

Lemma grows_refl (w : World) : grows w w.
Proof. split; [done|]. intros q fs' H1. eauto. Qed.

Lemma grows_trans (w1 w2 w3 : World) : grows w1 w2 -> grows w2 w3 -> grows w1 w3.
Proof.
  intros [Ht1 Hh1] [Ht2 Hh2]. split.
  - intros t. etrans; [apply Ht1 | apply Ht2].
  - intros q fs3 H3.
    destruct (Hh2 q fs3 H3) as (fs2 & H2 & Hf2 & Htr2 & Hc2).
    destruct (Hh1 q fs2 H2) as (fs1 & H1 & Hf1 & Htr1 & Hc1).
    exists fs1. repeat split; [done|congruence|congruence|auto].
Qed.

Lemma grows_ok (w w' : World) : world_ok w -> grows w w' -> world_ok w'.
Proof.
  intros Hok [Ht Hh] q fs' Hq Hc.
  destruct (Hh q fs' Hq) as (fs & Hfs & Hf & Htr & Hcl).
  destruct (Hok q fs Hfs (Hcl Hc)) as [H1 H2].
  unfold trees_at in *. rewrite Hf, Htr. split; by apply Ht.
Qed.

Lemma grows_upd (p : nat) (f : Fs -> Fs) (w : World) :
  quiet f -> grows w (upd p f w).
Proof.
  intros Hf. split; [done|]. intros q fs' Hq. cbn in Hq.
  destruct (decide (p = q)) as [->|Hne].
  - rewrite lookup_alter_eq in Hq.
    destruct (handles w !! q) as [fs|] eqn:Hw; [|done].
    injection Hq as <-. destruct (Hf fs) as (H1 & H2 & H3).
    by exists fs.
  - rewrite lookup_alter_ne in Hq by done. eauto.
Qed.

Lemma grows_same (w w' : World) :
  handles w' = handles w -> treemaps w' = treemaps w -> grows w w'.
Proof.
  intros Hh Ht. split; [by rewrite Ht|]. intros q fs'. rewrite Hh. eauto.
Qed.

Lemma quiet_set_ai v : quiet (set_ai v).
Proof. by intros []. Qed.
Lemma quiet_set_m v : quiet (set_m v).
Proof. by intros []. Qed.
Lemma quiet_set_closewc v : quiet (set_closewc v).
Proof. by intros []. Qed.
Lemma quiet_set_closed_true : quiet (set_closed true).
Proof. by intros []. Qed.

Lemma grows_then_upd (p : nat) (f : Fs -> Fs) (w w0 : World) :
  quiet f -> grows w w0 -> grows w (upd p f w0).
Proof. intros Hf H. eapply grows_trans; [exact H|]. by apply grows_upd. Qed.

Lemma grows_then_waits f (w w0 : World) :
  grows w w0 -> grows w (set_waits f w0).
Proof. intros H. eapply grows_trans; [exact H|]. by apply grows_same. Qed.

Lemma grows_then_muxes f (w w0 : World) :
  grows w w0 -> grows w (set_muxes f w0).
Proof. intros H. eapply grows_trans; [exact H|]. by apply grows_same. Qed.

Lemma grows_then_dials f (w w0 : World) :
  grows w w0 -> grows w (set_dials f w0).
Proof. intros H. eapply grows_trans; [exact H|]. by apply grows_same. Qed.

Create HintDb grows.

#[local] Hint Resolve grows_refl quiet_set_ai quiet_set_m quiet_set_closewc
  quiet_set_closed_true : grows.
#[local] Hint Resolve grows_then_upd grows_then_waits grows_then_muxes
  grows_then_dials : grows.

Lemma grows_then_watcher (q wc : nat) (w w0 : World) :
  grows w w0 -> grows w (watcher q wc w0).
Proof.
  intros H. unfold watcher.
  destruct (handles (upd q _ _) !! q); auto with grows.
Qed.

Lemma grows_then_mux_close (h : option nat) (mid : nat) (w w0 : World) :
  grows w w0 -> grows w (mux_close h mid w0).
Proof.
  intros H. unfold mux_close. destruct (muxes w0 !! mid) as [mx|]; [|done].
  destruct (mx_watch mx) as [[q wc]|]; [|auto with grows].
  destruct (decide (h = Some q)); [auto with grows|].
  apply grows_then_watcher. auto with grows.
Qed.

#[local] Hint Resolve grows_then_mux_close : grows.

Lemma grows_teardown (p : nat) (fs : Fs) (w w1 : World) (ok : bool) :
  redial_teardown p fs w = (w1, ok) -> grows w w1.
Proof.
  unfold redial_teardown. destruct (closed fs).
  { intros [= <- <-]. apply grows_refl. }
  destruct (m fs) as [mid|].
  - destruct (default false _); intros [= <- <-]; auto 10 with grows.
  - intros [= <- <-]. auto 10 with grows.
Qed.

Lemma grows_getTrees_at (fs : Fs) (c : Call) (w w' : World) (r : Outcome error) :
  getTrees_at fs c w = (w', r) -> grows w w'.
Proof.
  unfold getTrees_at.
  pose proof (getTrees_mono c (trees_at w fs)) as Hmono.
  destruct (getTrees c (trees_at w fs)) as [[ts c'] o]. cbn in Hmono.
  destruct (treemaps w !! trees fs) as [T|] eqn:HT.
  - intros [= <- <-]. split; [|cbn; eauto]. intros t. cbn.
    destruct (decide (trees fs = t)) as [<-|Hne].
    + rewrite lookup_insert_eq. unfold trees_at in Hmono. by rewrite HT in *.
    + by rewrite lookup_insert_ne.
  - destruct (decide (ts = ∅)); intros [= <- <-]; apply grows_refl.
Qed.

(** When [getTrees] returns nil on such a call, ["main"] is in the set. *)
Lemma getTrees_nil_main (c : Call) (ts : gset string) :
  rejects_with_error c ->
  (getTrees c ts).2 = Some None -> "main" ∈ (getTrees c ts).1.1.
Proof.
  intros Hrej. unfold getTrees.
  destruct (accepts_or_rejects (Out c)) as [Ha|Hr].
  - destruct (send_accepted _ (VMsg (msg0 Ttrees "main" "")) Ha)
      as (out & -> & _). cbn [negb].
    destruct (range trees_body _ _ _) as [[inc [ts' bad]] e].
    destruct bad; [done|].
    destruct (negb (ch_closed (Ch.settle inc))); [done|].
    intros _. cbn. apply elem_of_union_l. by apply elem_of_singleton.
  - rewrite (send_rejected _ _ Hr). cbn [negb snd]. rewrite cerror_settle.
    intros [= H]. by destruct (Hrej Hr).
Qed.

Lemma getTrees_at_main (fs : Fs) (c : Call) (w w' : World) :
  rejects_with_error c ->
  getTrees_at fs c w = (w', Returns None) -> "main" ∈ trees_at w' fs.
Proof.
  intros Hrej. unfold getTrees_at.
  pose proof (getTrees_nil_main c (trees_at w fs) Hrej) as Hmain.
  destruct (getTrees c (trees_at w fs)) as [[ts c'] o]. cbn in Hmain.
  destruct (treemaps w !! trees fs) as [T|] eqn:HT.
  - intros [= <- Ho]. unfold trees_at. cbn. rewrite lookup_insert_eq. cbn.
    apply Hmain. by destruct o as [[e|]|].
  - destruct (decide (ts = ∅)) as [->|]; [|done].
    intros [= <- Ho].
    assert (Hin : "main" ∈ (∅ : gset string)).
    { apply Hmain. by destruct o as [[e|]|]. }
    by apply not_elem_of_empty in Hin.
Qed.

(** [Redial] keeps the invariant. *)
Lemma Redial_ok (p : nat) (env : DialEnv) (w : World) :
  rejects_with_error (env_trees env) ->
  world_ok w -> world_ok (Redial p env w).1.
Proof.
  intros Hrej Hok. unfold Redial.
  destruct (handles w !! p) as [fs|] eqn:Hp; [|done].
  destruct (redial_teardown p fs w) as [w1 ok] eqn:Ht.
  pose proof (grows_teardown _ _ _ _ _ Ht) as G1.
  destruct ok; cbn [negb]; [|by apply (grows_ok w)].
  destruct (env_dial env); [by apply (grows_ok w)|].
  destruct (env_auth env) as [a aerr].
  match goal with |- context [if ?b then _ else _] => destruct b end.
  { apply (grows_ok w); [done|]. cbn [fst]. auto with grows. }
  destruct (getTrees_at fs (env_trees env) _) as [w2 r2] eqn:HG.
  pose proof (grows_getTrees_at _ _ _ _ _ HG) as G2.
  assert (G : grows w w2).
  { eapply grows_trans; [|exact G2]. auto 10 with grows. }
  destruct r2 as [[e|]| |]; cbn [fst];
    try solve [apply (grows_ok w); [done|]; auto 10 with grows].
  pose proof (getTrees_at_main _ _ _ _ Hrej HG) as Hmain.
  destruct (bool_decide (fsys fs ∈ trees_at _ fs)) eqn:Hin; cbn [negb fst].
  2: { apply (grows_ok w); [done|]. auto 10 with grows. }
  apply bool_decide_eq_true in Hin.
  match goal with |- world_ok (set_muxes _ (set_dials _ (upd p _ ?W))) =>
    assert (GW : grows w W) by auto 10 with grows;
    assert (HT : treemaps W = treemaps w2) by reflexivity;
    generalize dependent W; intros wY GW HT end.
  assert (Hin' : fsys fs ∈ trees_at wY fs) by (unfold trees_at in *; by rewrite HT).
  assert (Hmain' : "main" ∈ trees_at wY fs) by (unfold trees_at in *; by rewrite HT).
  intros q fs' Hq Hc.
  assert (Hq' : alter (set_closed false) p (handles wY) !! q = Some fs') by exact Hq.
  assert (Htr : trees_at (set_muxes
      <[fresh (dom (muxes w1)) := MkMux false (Some (p, default 0 (closewc <$>
          handles (set_dials <[raddr fs := p]> (upd p (set_closed false) wY)) !! p)))]>
      (set_dials <[raddr fs := p]> (upd p (set_closed false) wY))) fs'
    = trees_at wY fs') by reflexivity.
  rewrite Htr. clear Htr Hq.
  destruct (decide (p = q)) as [<-|Hne].
  - destruct GW as [_ Hh]. rewrite lookup_alter_eq in Hq'.
    destruct (handles wY !! p) as [fsY|] eqn:HY; [|done].
    injection Hq' as <-. destruct (Hh p fsY HY) as (fs0 & Hfs0 & Hf & Htr & _).
    rewrite Hp in Hfs0. injection Hfs0 as <-.
    unfold trees_at in *.
    change (fsys (set_closed false fsY)) with (fsys fsY).
    change (trees (set_closed false fsY)) with (trees fsY).
    rewrite Hf, Htr. by split.
  - rewrite lookup_alter_ne in Hq' by done.
    exact (grows_ok w wY Hok GW q fs' Hq' Hc).
Qed.

Lemma world_ok_empty : world_ok w_empty.
Proof. intros p fs H. cbn in H. by rewrite lookup_empty in H. Qed.

Lemma mux_close_ok (h : option nat) (mid : nat) (w : World) :
  world_ok w -> world_ok (mux_close h mid w).
Proof. intros H. apply (grows_ok w); [done|]. auto with grows. Qed.

(** A hangup and [Close] keep the invariant. *)
Lemma hangup_ok (mid : nat) (w : World) : world_ok w -> world_ok (hangup mid w).
Proof. apply mux_close_ok. Qed.

Lemma Close_ok (p : nat) (w : World) : world_ok w -> world_ok (Close p w).1.
Proof.
  intros H. unfold Close. destruct (handles w !! p) as [fs|]; [|done].
  destruct (m fs); [|done]. by apply mux_close_ok.
Qed.

(** [Fsys] keeps the invariant. *)
Lemma Fsys_ok (p : nat) (name : string) (w : World) :
  world_ok w -> world_ok (Fsys p name w).1.
Proof.
  intros Hok. unfold Fsys. destruct (handles w !! p) as [fs|] eqn:Hp; [|done].
  destruct (String.eqb name "main" || bool_decide (name ∈ trees_at w fs)) eqn:Hc;
    [|done].
  cbn [fst]. intros q fs' Hq Hcl. cbn in Hq.
  change (trees_at (set_handles <[new_handle w := set_fsys name fs]> w) fs')
    with (trees_at w fs').
  destruct (decide (new_handle w = q)) as [<-|Hne].
  - rewrite lookup_insert_eq in Hq. injection Hq as <-.
    destruct (Hok p fs Hp Hcl) as [Hf Hm].
    change (trees_at w (set_fsys name fs)) with (trees_at w fs).
    split; [|done]. cbn. apply orb_true_iff in Hc as [Hc|Hc].
    + apply String.eqb_eq in Hc. by subst.
    + by apply bool_decide_eq_true in Hc.
  - rewrite lookup_insert_ne in Hq by done. by apply (Hok q).
Qed.

Lemma dial_alloc_ok (ra ad fsname : string) (tc : option nat) (w : World) :
  world_ok w -> world_ok (dial_alloc ra ad fsname tc w).1.1.
Proof.
  intros Hok q fs' Hq Hcl. unfold dial_alloc in *. cbn in Hq.
  destruct (decide (new_handle w = q)) as [<-|Hne].
  - rewrite lookup_insert_eq in Hq. by injection Hq as <-.
  - rewrite lookup_insert_ne in Hq by done.
    destruct (Hok q fs' Hq Hcl) as [Hf Hm]. unfold trees_at in *. cbn.
    destruct (decide (fresh (dom (treemaps w)) = trees fs')) as [Heq|Hn].
    + assert (Hnone : treemaps w !! trees fs' = None).
      { rewrite <- Heq. apply not_elem_of_dom, is_fresh. }
      rewrite Hnone in Hf. by apply not_elem_of_empty in Hf.
    + by rewrite lookup_insert_ne.
Qed.

(** [Dial] keeps the invariant. *)
Lemma Dial_ok (a : string) (tlscfg : list (option nat)) (env : DialEnv)
    (w : World) :
  rejects_with_error (env_trees env) ->
  world_ok w -> world_ok (Dial a tlscfg env w).1.
Proof.
  intros Hrej Hok. unfold Dial. destruct (dialed _ w); [done|].
  destruct (Addr.splitaddr _) as [[ad fsname]|]; [|done].
  pose proof (dial_alloc_ok (Addr.FillAddr a) ad fsname
                (match tlscfg with c :: _ => c | [] => None end) w Hok) as H0.
  destruct (dial_alloc _ _ _ _ w) as [[w0 p] fs0]. cbn [fst] in H0.
  pose proof (Redial_ok p env w0 Hrej H0) as H1.
  destruct (Redial p env w0) as [w1 [[e|]| |]]; exact H1.
Qed.


(** That is the state in which a successful [Redial] leaves its handle. *)
Lemma Redial_twice_stuck :
  (Redial 0 (env_serving (None, None) ["work"])
     (Redial 0 (env_serving (None, None) ["work"]) w_work).1).2 = Stuck.
Proof. by vm_compute. Qed.

(** X1: [Dial] never panics: the address [FillAddr] returns has a separator for
    [splitaddr], the handle [Redial] gets exists, and its trees map is not
    nil. *)
Theorem Dial_never_panics (a : string) (tlscfg : list (option nat))
    (env : DialEnv) (w : World) :
  (Dial a tlscfg env w).2 <> Panics.
Proof.
  unfold Dial. destruct (dialed _ w); [done|].
  destruct (splitaddr_FillAddr a) as [[ad fsname] ->].
  unfold dial_alloc.
  set (fs := MkFs _ _ _ _ _ _ _ _ _ _).
  set (w0 := set_handles _ _).
  assert (Hp : handles w0 !! new_handle w = Some fs) by apply lookup_insert_eq.
  assert (HT : forall w1, treemaps w1 = treemaps w0 ->
                 treemaps w1 !! trees fs = Some ∅).
  { intros w1 ->. apply lookup_insert_eq. }
  assert (HR : (Redial (new_handle w) env w0).2 <> Panics).
  { unfold Redial. rewrite Hp. rewrite teardown_closed by done. cbn [negb].
    destruct (env_dial env); [done|]. destruct (env_auth env) as [a' aerr].
    match goal with |- context [if ?b then _ else _] => destruct b end; [done|].
    erewrite getTrees_at_Some by (apply HT; reflexivity).
    destruct (getTrees _ _).2 as [[e|]|]; [done| |done].
    by match goal with |- context [if ?b then _ else _] => destruct b end. }
  by destruct (Redial (new_handle w) env w0) as [w1 [[e|]| |]].
Qed.

(** X2: open handles know their tree: in the empty state, and after [Dial],
    [Redial], [Fsys], [Close] and a hangup in a state where it holds, the
    tree of every handle that is not closed is in its known-trees set, and
    so is ["main"].  The calls of tree discovery are on a mux that reports an
    error when it rejects a message. *)
Theorem open_handles_know_their_tree :
  world_ok w_empty /\
  (forall a tlscfg env w, rejects_with_error (env_trees env) ->
     world_ok w -> world_ok (Dial a tlscfg env w).1) /\
  (forall p env w, rejects_with_error (env_trees env) ->
     world_ok w -> world_ok (Redial p env w).1) /\
  (forall p name w, world_ok w -> world_ok (Fsys p name w).1) /\
  (forall p w, world_ok w -> world_ok (Close p w).1) /\
  (forall mid w, world_ok w -> world_ok (hangup mid w)).
Proof.
  split; [apply world_ok_empty|]. split; [apply Dial_ok|].
  split; [apply Redial_ok|]. split; [apply Fsys_ok|].
  split; [apply Close_ok | apply hangup_ok].
Qed.

(** ** More on addresses *)

Lemma Split_Join4 (t0 t1 t2 t3 : string) :
  Addr.nobang t0 = true -> Addr.nobang t1 = true -> Addr.nobang t2 = true ->
  Addr.nobang t3 = true ->
  Addr.Split (t0 ++ "!" ++ t1 ++ "!" ++ t2 ++ "!" ++ t3) = [t0; t1; t2; t3].
Proof.
  intros H0 H1 H2 H3.
  by rewrite !Split_app_bang, Split_single.
Qed.

(** What [FillAddr] returns has four pieces or more. *)
Lemma FillAddr_four (a : string) : 4 <= length (Addr.Split (Addr.FillAddr a)).
Proof.
  pose proof (Split_nobang a) as Hnb. pose proof (Join_Split a) as HJ.
  unfold Addr.FillAddr.
  destruct (Addr.Split a) as [|t0 [|t1 [|t2 [|t3 ts]]]] eqn:HS.
  - by apply Split_not_nil in HS.
  - apply Forall_cons in Hnb as [H0 _].
    change ("tcp!" ++ t0 ++ "!zx!main") with
      ("tcp" ++ "!" ++ t0 ++ "!" ++ "zx" ++ "!" ++ "main").
    by rewrite Split_Join4.
  - apply Forall_cons in Hnb as [H0 Hnb]. apply Forall_cons in Hnb as [H1 _].
    change ("tcp!" ++ t0 ++ "!" ++ t1 ++ "!main") with
      ("tcp" ++ "!" ++ t0 ++ "!" ++ t1 ++ "!" ++ "main").
    by rewrite Split_Join4.
  - apply Forall_cons in Hnb as [H0 Hnb]. apply Forall_cons in Hnb as [H1 Hnb].
    apply Forall_cons in Hnb as [H2 _].
    rewrite <- HJ. cbn [Addr.Join]. rewrite !append_assoc.
    change "!main" with ("!" ++ "main"). by rewrite Split_Join4.
  - rewrite HS. cbn. lia.
Qed.

(** X5: the canonical form is stable: [FillAddr] leaves what it returns as
    it is. *)
Theorem FillAddr_idempotent (a : string) :
  Addr.FillAddr (Addr.FillAddr a) = Addr.FillAddr a.
Proof.
  pose proof (FillAddr_four a) as H4.
  remember (Addr.FillAddr a) as b. unfold Addr.FillAddr.
  destruct (Addr.Split b) as [|t0 [|t1 [|t2 [|t3 ts]]]]; cbn in H4; try lia.
  reflexivity.
Qed.

Lemma lastbang_spec (s a t : string) :
  Addr.lastbang s = Some (a, t) -> s = a ++ "!" ++ t /\ Addr.nobang t = true.
Proof.
  revert a t. induction s as [|c r IH]; intros a t; cbn; [done|].
  destruct (Addr.lastbang r) as [[pre suf]|] eqn:Hl.
  - intros [= <- <-]. destruct (IH pre suf eq_refl) as [-> Hn]. by split.
  - destruct (Ascii.eqb_spec c Addr.bang) as [->|Hc]; [|done].
    intros [= <- <-]. split; [done|].
    clear IH. induction r as [|c' r IH']; [done|]. cbn in Hl |- *.
    destruct (Addr.lastbang r) as [[? ?]|]; [done|].
    destruct (Ascii.eqb c' Addr.bang); [done|]. by apply IH'.
Qed.

Lemma lastbang_nobang (s : string) :
  Addr.nobang s = true -> Addr.lastbang s = None.
Proof.
  induction s as [|c r IH]; [done|]. cbn.
  intros [Hc Hr]%andb_prop. rewrite (IH Hr).
  apply negb_true_iff in Hc. by rewrite Hc.
Qed.

Lemma lastbang_app (a t : string) :
  Addr.nobang t = true -> Addr.lastbang (a ++ "!" ++ t) = Some (a, t).
Proof.
  intros Ht. induction a as [|c a IH].
  - change ("" ++ "!" ++ t) with (String Addr.bang t). cbn [Addr.lastbang].
    by rewrite (lastbang_nobang t Ht).
  - change (String c a ++ "!" ++ t) with (String c (a ++ "!" ++ t)).
    cbn [Addr.lastbang]. by rewrite IH.
Qed.

(** X6: [splitaddr] cuts at the last separator and only there: what it
    returns joins back to the address and the tree has no separator; an
    address made of a prefix, a separator and a separator-free tree splits
    into the two; and it panics exactly on addresses without separator. *)
Theorem splitaddr_round_trip :
  (forall s a t, Addr.splitaddr s = Some (a, t) ->
     s = a ++ "!" ++ t /\ Addr.nobang t = true) /\
  (forall a t, Addr.nobang t = true ->
     Addr.splitaddr (a ++ "!" ++ t) = Some (a, t)) /\
  (forall s, Addr.splitaddr s = None <-> Addr.nobang s = true).
Proof.
  split; [apply lastbang_spec|]. split; [apply lastbang_app|].
  intros s. split; [|apply lastbang_nobang].
  intros H. destruct (Addr.nobang s) eqn:Hn; [done|].
  destruct (lastbang_has s Hn) as [x Hx]. unfold Addr.splitaddr in H. congruence.
Qed.

Lemma lastbang_prepend (x s pre l : string) :
  Addr.lastbang s = Some (pre, l) -> Addr.lastbang (x ++ s) = Some (x ++ pre, l).
Proof.
  intros Hs. induction x as [|c x IH]; [done|].
  change (String c x ++ s) with (String c (x ++ s)). cbn [Addr.lastbang].
  by rewrite IH.
Qed.

Lemma lastbang_Join (init : list string) (t : string) :
  init <> [] -> Addr.nobang t = true ->
  Addr.lastbang (Addr.Join (init ++ [t])) = Some (Addr.Join init, t).
Proof.
  intros Hne Ht. induction init as [|x init IH]; [done|].
  destruct init as [|y r].
  - cbn. by apply lastbang_app.
  - change (Addr.Join ((x :: y :: r) ++ [t])) with
      (x ++ "!" ++ Addr.Join ((y :: r) ++ [t])).
    rewrite <- append_assoc.
    rewrite (lastbang_prepend _ _ _ _ (IH ltac:(done))).
    by rewrite append_assoc.
Qed.

(** X7: the connection address and the tree that [Dial] takes from an
    address: the canonical form always splits and its tree has no separator;
    for an address of up to three pieces the tree is ["main"], and for one of
    four pieces or more the tree is the last piece and the connection
    address is the join of the others. *)
Theorem splitaddr_FillAddr_tree (a : string) :
  exists ad t : string,
    Addr.splitaddr (Addr.FillAddr a) = Some (ad, t) /\
    Addr.FillAddr a = ad ++ "!" ++ t /\ Addr.nobang t = true /\
    (length (Addr.Split a) <= 3 -> t = "main") /\
    (4 <= length (Addr.Split a) ->
       exists init, Addr.Split a = (init ++ [t])%list /\ ad = Addr.Join init).
Proof.
  destruct (splitaddr_FillAddr a) as [[ad t] Hs]. exists ad, t.
  destruct (lastbang_spec _ _ _ Hs) as [Heq Hnt].
  split; [done|]. split; [done|]. split; [done|].
  pose proof (Split_nobang a) as Hnb. pose proof (Join_Split a) as HJ.
  assert (Hmain : forall pre, Addr.FillAddr a = pre ++ "!" ++ "main" -> t = "main").
  { intros pre Hp. rewrite Hp in Hs. unfold Addr.splitaddr in Hs.
    rewrite lastbang_app in Hs by done. by injection Hs as _ <-. }
  split.
  - intros Hlen. unfold Addr.FillAddr in Hmain.
    destruct (Addr.Split a) as [|t0 [|t1 [|t2 [|t3 ts]]]] eqn:HS;
      [by apply Split_not_nil in HS| | | |cbn in Hlen; lia].
    + apply (Hmain ("tcp!" ++ t0 ++ "!zx")). by rewrite !append_assoc.
    + apply (Hmain ("tcp!" ++ t0 ++ "!" ++ t1)). by rewrite !append_assoc.
    + by apply (Hmain a).
  - intros Hlen.
    assert (Hfix : Addr.FillAddr a = a).
    { unfold Addr.FillAddr.
      by destruct (Addr.Split a) as [|t0 [|t1 [|t2 [|t3 ts]]]]; cbn in Hlen; try lia. }
    rewrite Hfix in Hs.
    destruct (exists_last (Split_not_nil a)) as (init & l & Hl).
    assert (Hinit : init <> []).
    { intros ->. rewrite Hl in Hlen. cbn in Hlen. lia. }
    assert (Hnl : Addr.nobang l = true).
    { rewrite Hl in Hnb. apply Forall_app in Hnb as [_ Hnb].
      by apply Forall_cons in Hnb as [? _]. }
    rewrite <- HJ, Hl in Hs. unfold Addr.splitaddr in Hs.
    rewrite (lastbang_Join init l Hinit Hnl) in Hs. injection Hs as <- <-.
    by exists init.
Qed.
(** ** More on [Redial], [Dial] and [Close] *)

(** [Redial] on a closed handle with a trees map, up to the end of tree
    discovery: the state in which the discovered set is looked at. *)
Lemma Redial_closed_discovery (p : nat) (env : DialEnv) (w : World) (fs : Fs)
    (T : gset string) :
  handles w !! p = Some fs -> closed fs = true ->
  treemaps w !! trees fs = Some T ->
  env_dial env = None -> auth_passes (env_auth env) ->
  Redial p env w =
    let mid := fresh (dom (muxes w)) in
    let ts := (getTrees (env_trees env) T).1.1 in
    let w1 := set_treemaps (<[trees fs := ts]>)
                (upd p (set_m (Some mid)) (upd p (set_ai (env_auth env).1)
                   (set_muxes (<[mid := MkMux false None]>) w))) in
    match (getTrees (env_trees env) T).2 with
    | None => (w1, Stuck)
    | Some (Some e) =>
        (mux_close (Some p) mid (upd p (set_m None) (upd p (set_ai None) w1)),
         Returns (Some e))
    | Some None =>
        if bool_decide (fsys fs ∈ ts) then
          (set_muxes (<[mid := MkMux false (Some (p, closewc fs))]>)
             (set_dials (<[raddr fs := p]>)
                (upd p (set_closed false) (upd p (set_m (Some mid))
                   (upd p (set_ai (env_auth env).1)
                      (upd p (set_m None) (upd p (set_ai None) w1)))))),
           Returns None)
        else
          (mux_close (Some p) mid (upd p (set_m None) (upd p (set_ai None) w1)),
           Returns (Some ("no fsys '" ++ fsys fs ++ "' found in server")))
    end.
Proof.
  intros Hp Hc HT Hd Ha. unfold Redial.
  rewrite Hp, (teardown_closed _ _ _ Hc), Hd. cbn [negb].
  destruct (env_auth env) as [a aerr] eqn:Hauth. cbn [fst].
  assert (Hf : match aerr with
               | Some e => negb (Contains e "auth disabled")
               | None => false
               end = false).
  { destruct aerr as [e|]; [|done]. by rewrite (Ha e eq_refl). }
  rewrite Hf. erewrite getTrees_at_Some by (cbn; exact HT).
  cbn zeta. destruct (getTrees (env_trees env) T).2 as [[e|]|]; [done| |done].
  assert (Hb : forall w0 : World,
    treemaps w0 = <[trees fs := (getTrees (env_trees env) T).1.1]> (treemaps w) ->
    trees_at w0 fs = (getTrees (env_trees env) T).1.1).
  { intros w0 Hw0. unfold trees_at. by rewrite Hw0, lookup_insert_eq. }
  rewrite Hb by done.
  destruct (bool_decide _); cbn [negb]; [|done].
  do 3 f_equal. cbn. by rewrite !lookup_alter_eq, Hp.
Qed.

(** X8: a [Redial] that gets through: on a closed handle, when the mux
    opens, authentication passes, tree discovery returns nil and the handle's
    tree is in the discovered set, [Redial] returns nil and leaves the handle
    open on the new mux with the context authentication returned, installed
    in the cache under its raw address, with a watcher on the new mux; no
    other handle, cache entry, mux or close-wait channel changes. *)
Theorem Redial_opens_handle (p : nat) (env : DialEnv) (w : World) (fs : Fs)
    (T : gset string) :
  handles w !! p = Some fs -> closed fs = true ->
  treemaps w !! trees fs = Some T ->
  env_dial env = None -> auth_passes (env_auth env) ->
  (getTrees (env_trees env) T).2 = Some None ->
  fsys fs ∈ (getTrees (env_trees env) T).1.1 ->
  exists w',
    Redial p env w = (w', Returns None) /\
    muxes w !! fresh (dom (muxes w)) = None /\
    handles w' !! p =
      Some (set_closed false (set_m (Some (fresh (dom (muxes w))))
              (set_ai (env_auth env).1 fs))) /\
    (forall q, q <> p -> handles w' !! q = handles w !! q) /\
    dials w' = <[raddr fs := p]> (dials w) /\
    muxes w' =
      <[fresh (dom (muxes w)) := MkMux false (Some (p, closewc fs))]> (muxes w) /\
    treemaps w' = <[trees fs := (getTrees (env_trees env) T).1.1]> (treemaps w) /\
    waits w' = waits w.
Proof.
  intros Hp Hc HT Hd Ha Hg Hin.
  rewrite (Redial_closed_discovery p env w fs T) by done. cbn zeta.
  rewrite Hg, bool_decide_eq_true_2 by done.
  eexists. split; [reflexivity|].
  split; [apply not_elem_of_dom, is_fresh|]. cbn.
  split; [|split; [|split; [done|split; [by rewrite insert_insert_eq|done]]]].
  - rewrite !lookup_alter_eq, Hp. by destruct fs.
  - intros q Hq. by rewrite !lookup_alter_ne.
Qed.

(** What closing a watched mux does when the watcher is free to run: the
    closing goroutine does not hold the lock of the watcher's handle. *)
Lemma mux_close_watched (h : option nat) (mid p wc : nat) (w : World) (fs : Fs)
    (b : bool) :
  h <> Some p ->
  muxes w !! mid = Some (MkMux b (Some (p, wc))) ->
  handles w !! p = Some fs ->
  handles (mux_close h mid w) = <[p := set_closed true fs]> (handles w) /\
  dials (mux_close h mid w) = delete (raddr fs) (dials w) /\
  muxes (mux_close h mid w) = <[mid := MkMux true None]> (muxes w) /\
  waits (mux_close h mid w) = <[wc := true]> (waits w) /\
  treemaps (mux_close h mid w) = treemaps w.
Proof.
  intros Hh Hm Hp. unfold mux_close. rewrite Hm. cbn [mx_watch].
  rewrite decide_False by done. unfold watcher. cbn.
  rewrite lookup_alter_eq, Hp. cbn.
  split; [|done]. apply map_eq. intros q.
  destruct (decide (p = q)) as [<-|Hne].
  - by rewrite lookup_alter_eq, lookup_insert_eq, Hp.
  - by rewrite lookup_alter_ne, lookup_insert_ne.
Qed.



(** X11: a [Redial] that fails on a closed handle cleans up: the cache, the
    close-wait channels and every other handle are as before, the handle is
    still closed, and the only mux that may be new is closed and unwatched. *)
Theorem Redial_failure_is_clean (p : nat) (env : DialEnv) (w w' : World)
    (fs : Fs) (e : Err) :
  handles w !! p = Some fs -> closed fs = true ->
  Redial p env w = (w', Returns (Some e)) ->
  dials w' = dials w /\ waits w' = waits w /\
  (muxes w' = muxes w \/
   muxes w' = <[fresh (dom (muxes w)) := MkMux true None]> (muxes w)) /\
  (exists fs', handles w' !! p = Some fs' /\ closed fs' = true) /\
  (forall q, q <> p -> handles w' !! q = handles w !! q).
Proof.
  intros Hp Hc HR. unfold Redial in HR.
  rewrite Hp, (teardown_closed _ _ _ Hc) in HR. cbn [negb] in HR.
  destruct (env_dial env) as [e0|].
  { injection HR as <- _. repeat split; eauto. }
  destruct (env_auth env) as [a aerr].
  set (mid := fresh (dom (muxes w))) in *.
  assert (Hclose : forall w0 : World,
    muxes w0 = <[mid := MkMux false None]> (muxes w) ->
    mux_close (Some p) mid w0 = set_muxes (<[mid := MkMux true None]>) w0).
  { intros w0 Hw0. apply (mux_close_unwatched _ _ _ false).
    rewrite Hw0. apply lookup_insert_eq. }
  match type of HR with (if ?b then _ else _) = _ => destruct b end.
  { rewrite Hclose in HR by done. injection HR as <- _. cbn.
    repeat split; eauto. right. by rewrite insert_insert_eq. }
  destruct (getTrees_at fs (env_trees env) _) as [w2 r2] eqn:HG.
  apply getTrees_at_frame in HG as (Hh & Hdl & Hm & Hw). cbn in Hh, Hdl, Hm, Hw.
  assert (Hfin : forall w0 : World,
    mux_close (Some p) mid (upd p (set_m None) (upd p (set_ai None) w2)) = w0 ->
    dials w0 = dials w /\ waits w0 = waits w /\
    (muxes w0 = muxes w \/ muxes w0 = <[mid := MkMux true None]> (muxes w)) /\
    (exists fs', handles w0 !! p = Some fs' /\ closed fs' = true) /\
    (forall q, q <> p -> handles w0 !! q = handles w !! q)).
  { intros w0 <-. rewrite Hclose by done. cbn. rewrite Hdl, Hw, Hm, Hh.
    split; [done|]. split; [done|].
    split; [right; by rewrite insert_insert_eq|]. split.
    - eexists. split; [rewrite !lookup_alter_eq, Hp; reflexivity|done].
    - intros q Hq. by rewrite !lookup_alter_ne. }
  destruct r2 as [[e2|]| |]; try discriminate HR.
  - injection HR as HR _. by apply Hfin.
  - match type of HR with (if ?b then _ else _) = _ => destruct b end;
      [|discriminate HR].
    injection HR as HR _. by apply Hfin.
Qed.

(** X12: dialing again gives the same handle: once [Dial] has returned a
    handle, a [Dial] of any address with the same canonical form returns that
    handle and changes nothing, whatever the network would do. *)
Theorem Dial_twice_same_handle (a a' : string) (tls tls' : list (option nat))
    (env env' : DialEnv) (w w' : World) (p : nat) :
  Dial a tls env w = (w', Returns (Some p, None)) ->
  Addr.FillAddr a' = Addr.FillAddr a ->
  Dial a' tls' env' w' = (w', Returns (Some p, None)).
Proof.
  intros HD Ha.
  assert (Hc : dials w' !! Addr.FillAddr a = Some p).
  { unfold Dial, dialed in HD.
    destruct (dials w !! Addr.FillAddr a) as [p0|] eqn:Hhit.
    { by injection HD as <- <-. }
    destruct (Addr.splitaddr (Addr.FillAddr a)) as [[ad fsname]|]; [|done].
    unfold dial_alloc in HD.
    match type of HD with context [Redial ?P env ?W] =>
      destruct (Redial P env W) as [w1 r1] eqn:HR;
      assert (Hp0 : handles W !! P = Some
        (MkFs false ad (Addr.FillAddr a)
           (match tls with c :: _ => c | [] => None end) None
           (fresh (dom (treemaps w))) fsname None true (fresh (dom (waits w)))))
        by apply lookup_insert_eq
    end.
    destruct (Redial_closed_cache _ _ _ _ _ _ Hp0 eq_refl HR)
      as [(-> & Hd & _)|(Hne & _)].
    - injection HD as <- <-. rewrite Hd. apply lookup_insert_eq.
    - destruct r1 as [[e|]| |]; try discriminate HD. done. }
  unfold Dial, dialed. by rewrite Ha, Hc.
Qed.

(** When [Redial] on a closed handle returns nil, every stage got through. *)
Lemma Redial_closed_nil_inv (p : nat) (env : DialEnv) (w w' : World) (fs : Fs)
    (T : gset string) :
  handles w !! p = Some fs -> closed fs = true ->
  treemaps w !! trees fs = Some T ->
  Redial p env w = (w', Returns None) ->
  env_dial env = None /\ auth_passes (env_auth env) /\
  (getTrees (env_trees env) T).2 = Some None /\
  fsys fs ∈ (getTrees (env_trees env) T).1.1.
Proof.
  intros Hp Hc HT HR.
  assert (Hd : env_dial env = None).
  { unfold Redial in HR. rewrite Hp, (teardown_closed _ _ _ Hc) in HR.
    cbn [negb] in HR. by destruct (env_dial env). }
  assert (Ha : auth_passes (env_auth env)).
  { unfold Redial in HR. rewrite Hp, (teardown_closed _ _ _ Hc), Hd in HR.
    cbn [negb] in HR. destruct (env_auth env) as [a aerr].
    intros e He. cbn in He. subst aerr.
    destruct (Contains e "auth disabled"); [done|]. discriminate HR. }
  rewrite (Redial_closed_discovery p env w fs T) in HR by done. cbn zeta in HR.
  split; [done|]. split; [done|].
  destruct (getTrees (env_trees env) T).2 as [[e|]|]; try discriminate HR.
  split; [done|].
  destruct (bool_decide (fsys fs ∈ _)) eqn:Hb; [|discriminate HR].
  by apply bool_decide_eq_true in Hb.
Qed.

Lemma names_of_strs (msgs : list Val) (x : string) :
  forallb is_str msgs = true -> (x ∈ names_of msgs <-> VStr x ∈ msgs).
Proof.
  induction msgs as [|v msgs IH]; cbn.
  - intros _. split; [by intros ?%not_elem_of_empty | by intros ?%not_elem_of_nil].
  - destruct v; try done. cbn. intros H. rewrite elem_of_union, elem_of_cons.
    rewrite (IH H), elem_of_singleton. split; intros [Hx|Hx]; auto.
    + left. by subst.
    + left. by injection Hx.
Qed.

(** What [getTrees] has put into an empty set when it returns nil and the
    set is not empty. *)
Lemma getTrees_nil_listing (c : Call) (x : string) :
  (getTrees c ∅).2 = Some None -> x ∈ (getTrees c ∅).1.1 ->
  forall y, y ∈ (getTrees c ∅).1.1 <-> y = "main" \/ VStr y ∈ ch_buf (In c).
Proof.
  unfold getTrees.
  destruct (Ch.send (Out c) _) as [out [|]]; cbn [negb].
  2: { intros _ Hx. by apply not_elem_of_empty in Hx. }
  destruct (range_trees_body (ch_buf (In c)) (In c) ∅) as [Hs Hb].
  destruct (forallb is_str (ch_buf (In c))) eqn:Hstr.
  - rewrite (Hs eq_refl). cbn [negb].
    destruct (ch_closed _); cbn [negb]; [|done].
    intros _ _ y. cbn. rewrite !elem_of_union, elem_of_singleton.
    rewrite (names_of_strs _ _ Hstr). split.
    + intros [Hy|[Hy|Hy]]; auto. by apply not_elem_of_empty in Hy.
    + intros [Hy|Hy]; auto.
  - by destruct (Hb eq_refl) as [inc' ->].
Qed.

(** X13: the trees of a newly dialed handle: when [Dial] makes a handle
    (cache miss) and returns it, [Trees] on it lists ["main"] and the names
    the server sent in reply to the trees request, nothing else, and the tree
    of the dialed address is among them. *)
Theorem Dial_lists_trees (a : string) (tls : list (option nat)) (env : DialEnv)
    (w w' : World) (p : nat) :
  dials w !! Addr.FillAddr a = None ->
  Dial a tls env w = (w', Returns (Some p, None)) ->
  exists (ad t : string) (l : list string),
    Addr.splitaddr (Addr.FillAddr a) = Some (ad, t) /\
    Trees p w' = Returns l /\ t ∈ l /\ "main" ∈ l /\
    (forall x, x ∈ l <-> x = "main" \/ VStr x ∈ ch_buf (In (env_trees env))).
Proof.
  intros Hmiss HD. unfold Dial, dialed in HD. rewrite Hmiss in HD.
  destruct (Addr.splitaddr (Addr.FillAddr a)) as [[ad t]|]; [|done].
  unfold dial_alloc in HD.
  set (p0 := new_handle w) in *.
  match type of HD with context [Redial p0 env ?W] => set (w0 := W) in * end.
  destruct (Redial p0 env w0) as [w1 r1] eqn:HR.
  set (fs0 := MkFs false ad (Addr.FillAddr a)
           (match tls with c :: _ => c | [] => None end) None
           (fresh (dom (treemaps w))) t None true (fresh (dom (waits w)))).
  assert (Hp0 : handles w0 !! p0 = Some fs0) by apply lookup_insert_eq.
  assert (HT0 : treemaps w0 !! trees fs0 = Some ∅) by apply lookup_insert_eq.
  destruct r1 as [[e|]| |]; cbv beta iota in HD; try discriminate HD.
  injection HD as <- <-.
  destruct (Redial_closed_nil_inv _ _ _ _ _ _ Hp0 eq_refl HT0 HR)
    as (Hd & Ha & Hg & Hin).
  rewrite (Redial_closed_discovery p0 env w0 fs0 ∅) in HR by done.
  cbn zeta in HR. rewrite Hg, bool_decide_eq_true_2 in HR by done.
  injection HR as <-.
  exists ad, t, (Trees_of (getTrees (env_trees env) ∅).1.1).
  split; [done|].
  assert (Hl : forall x, x ∈ Trees_of (getTrees (env_trees env) ∅).1.1 <->
                 x = "main" \/ VStr x ∈ ch_buf (In (env_trees env))).
  { intros x. rewrite Trees_of_elem. by apply (getTrees_nil_listing _ t). }
  split.
  { unfold Trees. cbn. rewrite !lookup_alter_eq. subst w0. cbn.
    rewrite lookup_insert_eq. cbn. unfold trees_at. cbn.
    by rewrite lookup_insert_eq. }
  split; [by rewrite Trees_of_elem|]. split; [|done].
  apply Hl. by left.
Qed.

(** X14: [Redial] on an [Fsys] copy of an open handle.  The copy shares the
    mux and the close-wait channel, so its [Redial] closes the original's
    connection: the original's watcher marks the original closed and removes
    its cache entry.  When the copy's [Redial] gets through, the copy is put
    into the cache under the raw address it copied from the original, which
    names the original's tree and not the copy's. *)
Theorem Redial_on_copy (p q mid : nat) (name : string) (env : DialEnv)
    (w : World) (fs : Fs) (T : gset string) (b : bool) :
  handles w !! p = Some fs -> closed fs = false -> m fs = Some mid ->
  muxes w !! mid = Some (MkMux b (Some (p, closewc fs))) ->
  handles w !! q = Some (set_fsys name fs) -> q <> p ->
  treemaps w !! trees fs = Some T ->
  env_dial env = None -> auth_passes (env_auth env) ->
  (getTrees (env_trees env) T).2 = Some None ->
  name ∈ (getTrees (env_trees env) T).1.1 ->
  exists (w' : World) (fq : Fs),
    Redial q env w = (w', Returns None) /\
    handles w' !! p = Some (set_closed true fs) /\
    handles w' !! q = Some fq /\ closed fq = false /\ fsys fq = name /\
    raddr fq = raddr fs /\ m fq <> Some mid /\
    dials w' !! raddr fs = Some q /\
    waits w' !! closewc fs = Some true.
Proof.
  intros Hp Hc Hm Hmx Hq Hqp HT Hd Ha Hg Hin.
  assert (Hne : Some q <> Some p) by congruence.
  destruct (mux_close_watched (Some q) mid p (closewc fs) w fs b Hne Hmx Hp)
    as (Hh0 & Hd0 & Hm0 & Hw0 & Ht0).
  set (w0 := mux_close (Some q) mid w) in *.
  set (wc := fresh (dom (waits w0))).
  set (w1 := set_waits (<[wc := false]>)
               (upd q (set_closewc wc) (upd q (set_closed true)
                  (upd q (set_ai None) w0)))).
  set (fq1 := set_closewc wc (set_closed true (set_ai None (set_fsys name fs)))).
  assert (Hq0 : handles w0 !! q = Some (set_fsys name fs)).
  { rewrite Hh0. by rewrite lookup_insert_ne. }
  assert (Hq1 : handles w1 !! q = Some fq1).
  { subst w1. cbn. by rewrite !lookup_alter_eq, Hq0. }
  assert (Hwait : waits w0 !! closewc fs = Some true).
  { rewrite Hw0. apply lookup_insert_eq. }
  assert (Hstep : Redial q env w = Redial q env w1).
  { unfold Redial at 1. rewrite Hq. unfold redial_teardown.
    change (closed (set_fsys name fs)) with (closed fs).
    change (m (set_fsys name fs)) with (m fs).
    change (closewc (set_fsys name fs)) with (closewc fs).
    rewrite Hc, Hm. fold w0. rewrite Hwait.
    cbn [default from_option id negb]. fold wc. fold w1.
    unfold Redial. rewrite Hq1. by rewrite (teardown_closed q fq1 w1). }
  assert (HT1 : treemaps w1 !! trees fq1 = Some T).
  { subst w1. cbn. by rewrite Ht0. }
  rewrite Hstep.
  rewrite (Redial_closed_discovery q env w1 fq1 T Hq1 eq_refl HT1 Hd Ha).
  cbn zeta. rewrite Hg.
  change (fsys fq1) with name. rewrite bool_decide_eq_true_2 by done.
  eexists _, _. split; [reflexivity|]. cbn.
  split; [rewrite !lookup_alter_ne by done; rewrite Hh0; apply lookup_insert_eq|].
  split; [rewrite !lookup_alter_eq, Hq0; reflexivity|].
  split; [done|]. split; [done|]. split; [done|]. split.
  { cbn. intros [= Heq].
    assert (Hin2 : mid ∈ dom (muxes w0)).
    { rewrite Hm0. apply elem_of_dom. rewrite lookup_insert_eq. eauto. }
    subst w1. cbn in Heq. rewrite <- Heq in Hin2. by apply is_fresh in Hin2. }
  split; [apply lookup_insert_eq|].
  rewrite lookup_insert_ne.
  { rewrite Hw0. apply lookup_insert_eq. }
  intros Heq. assert (Hin2 : closewc fs ∈ dom (waits w0)).
  { rewrite Hw0. apply elem_of_dom. rewrite lookup_insert_eq. eauto. }
  subst wc. rewrite <- Heq in Hin2. by apply is_fresh in Hin2.
Qed.
(** ** More on the envelopes *)






Lemma sink_0 (b : list Val) (e : error) : sink b 0 e = MkChan b true e None 0.
Proof. reflexivity. Qed.

Lemma send_sink_S (b : list Val) (k : nat) (e : error) (v : Val) :
  Ch.send (sink b (S k) e) v = (sink (b ++ [v]) k e, true).
Proof. reflexivity. Qed.





Lemma range_put_all (pend : list Val) (dch : Chan) (ob : list Val) (oe : error)
    (n : nat) :
  range put_body pend dch (MkChan ob false oe None n, false) =
    (Ch.rest dch [], (MkChan (ob ++ pend) false oe None n, false), Drained).
Proof.
  revert dch ob. induction pend as [|v pend IH]; intros dch ob.
  - cbn. by rewrite app_nil_r.
  - cbn [range]. cbn. rewrite IH, <- app_assoc. by destruct dch.
Qed.

Lemma range_put_rejected (pend : list Val) (dch : Chan) (ob : list Val)
    (j : nat) (e : error) :
  j < length pend ->
  range put_body pend dch (sink ob j e, false) =
    (Ch.rest dch (drop (S j) pend),
     (MkChan (ob ++ take j pend) true e None 0, true), Broke).
Proof.
  revert dch ob j. induction pend as [|v pend IH]; intros dch ob j Hj;
    [cbn in Hj; lia|].
  cbn [range]. destruct j as [|j].
  - rewrite sink_0. cbn. by rewrite app_nil_r, drop_0.
  - unfold put_body at 1. cbn [fst]. rewrite send_sink_S. cbn in Hj.
    rewrite IH by lia. cbn [take drop]. rewrite <- app_assoc. by destruct dch.
Qed.

(** X18: [Put] of a file streams the caller's data: when the entry is no
    directory, the mux takes every message, and the caller has queued its
    chunks on [dc] and closed it, the outbound half carries the header and
    then the chunks in their order and is closed with the reason [dc] was
    closed with; [dc] is drained and no [close] is called on it.  When that
    reason is nil the envelope goes on to read the reply; when it is an error
    the inbound half and [rc] are closed with it and no reply is read. *)
Theorem Put_streams_data (fs : Fs) (c : Call) (caller : Caller) (p : string)
    (d : Dir) (off : Z) (ch : Chan) (ob : list Val) :
  String.eqb (dir_get d "type") "d" = false ->
  Out c = MkChan ob false None None 0 ->
  ch_closed (Ch.settle ch) = true ->
  let hdr := VMsg (MkMsg Tput (fsys fs) p "" (Some d) off 0 "" "" "" 0) in
  let out := MkChan (ob ++ hdr :: ch_buf ch) true (Ch.cerror ch) None 1 in
  let R := Put fs c caller p d off (Some ch) in
  e_out (p_env R) = out /\
  p_dc R = Some (Ch.rest ch []) /\ p_own R = None /\
  match Ch.cerror ch with
  | None => p_env R = put_reply out (In c) (Ch.make caller)
  | Some e =>
      e_blocked (p_env R) = false /\
      e_in (p_env R) = Ch.close (In c) (Some e) /\
      e_rc (p_env R) = Ch.close (Ch.make caller) (Some e)
  end.
Proof.
  intros Hd Hout Hch hdr out R. subst R. unfold Put. rewrite Hd, Hout.
  cbn [Ch.send Ch.settle ch_closed ch_quota ch_buf ch_err ch_ncloses negb
       default from_option id].
  rewrite range_put_all. cbn [snd fst].
  rewrite rest_closed, Hch, rest_cerror. cbn [negb put_store].
  assert (Ho : Ch.close
      (MkChan ((ob ++ [VMsg (MkMsg Tput (fsys fs) p "" (Some d) off 0 "" "" "" 0)])
               ++ ch_buf ch) false None None 0) (Ch.cerror ch) = out).
  { subst out hdr. cbn. by rewrite <- app_assoc. }
  rewrite Ho. destruct (Ch.cerror ch) as [e|]; cbn [p_env p_dc p_own e_out].
  - done.
  - by rewrite put_reply_out.
Qed.

(** X19: [Put] stops when the mux rejects a chunk: when the outbound half
    takes the header and [j] chunks and is then closed by the mux with an
    error, and the caller has more chunks queued, the envelope closes [dc]
    with that error (unless the caller had closed it), closes the inbound
    half and [rc] with it, and returns without reading a reply; the chunk it
    was sending is dropped. *)
Theorem Put_stops_at_rejected_chunk (fs : Fs) (c : Call) (p : string) (d : Dir) (off : Z)
    (ch : Chan) (ob : list Val) (j : nat) (e : error) :
  String.eqb (dir_get d "type") "d" = false ->
  Out c = sink ob (S j) e ->
  j < length (ch_buf ch) ->
  let hdr := VMsg (MkMsg Tput (fsys fs) p "" (Some d) off 0 "" "" "" 0) in
  let R := Put fs c None p d off (Some ch) in
  e_out (p_env R) = MkChan (ob ++ hdr :: take j (ch_buf ch)) true e None 0 /\
  e_rc (p_env R) = MkChan [] true e None 1 /\
  e_in (p_env R) = Ch.close (In c) e /\
  e_blocked (p_env R) = false /\
  p_dc R = Some (Ch.close (Ch.rest ch (drop (S j) (ch_buf ch))) e).
Proof.
  intros Hd Hout Hj hdr R. subst R. unfold Put. rewrite Hd, Hout.
  rewrite send_sink_S. cbn [negb default from_option id].
  rewrite range_put_rejected by done. cbn [snd fst put_store].
  cbn [p_env p_dc e_out e_rc e_in e_blocked].
  split; [|done]. subst hdr. by rewrite <- app_assoc.
Qed.



(** A [Put] without data of the caller's is its header and then the reply
    part. *)
Lemma Put_no_data (fs : Fs) (c : Call) (caller : Caller) (p : string) (d : Dir)
    (off : Z) (dc : option Chan) (out : Chan) :
  no_data (RPut p d off dc) ->
  Ch.send (Out c) (VMsg (MkMsg Tput (fsys fs) p "" (Some d) off 0 "" "" "" 0))
    = (out, true) ->
  p_env (Put fs c caller p d off dc) =
    put_reply (Ch.close out None) (In c) (Ch.make caller).
Proof.
  intros Hnd Hs. unfold Put. rewrite Hs. cbn [negb].
  destruct dc as [ch|]; cbn [no_data] in Hnd.
  - rewrite Hnd. by cbn.
  - destruct (String.eqb (dir_get d "type") "d"); by cbn.
Qed.


Lemma put_reply_delivers (out inc : Chan) :
  is_Some (Ch.recv inc) ->
  e_rc (put_reply out inc (Ch.make None)) =
    match Ch.cerror inc, head_msg inc with
    | None, VDir d => MkChan [VDir d] true None None 1
    | None, _ => MkChan [] true (Some ErrBadMsg) None 1
    | Some e, _ => MkChan [] true (Some e) None 1
    end /\
  e_blocked (put_reply out inc (Ch.make None)) = false /\
  ch_closed (e_in (put_reply out inc (Ch.make None))) = true.
Proof.
  intros [[[x ok] inc'] Hr]. unfold put_reply. rewrite Hr.
  rewrite (recv_cerror _ _ _ _ Hr).
  assert (Hx : x = head_msg inc).
  { unfold Ch.recv, head_msg in *.
    assert (Hb : ch_buf (Ch.settle inc) = ch_buf inc) by by chan_cases inc.
    rewrite Hb in Hr. destruct (ch_buf inc); [|by injection Hr as <- _ _].
    destruct (ch_closed (Ch.settle inc)); [by injection Hr as <- _ _|done]. }
  subst x. destruct (Ch.cerror inc) as [e|]; cbn [e_rc e_blocked e_in].
  - by rewrite close_closed.
  - destruct (head_msg inc); cbn [e_rc e_blocked e_in]; by rewrite close_closed.
Qed.

(** X21: what a single-reply operation delivers ([Stat], [Wstat], a [Put]
    without data): when the request is accepted and the inbound half answers,
    the caller gets the directory entry, and [rc] is closed without error,
    exactly when the first message is a directory entry and the inbound half
    has no error; with an inbound error it gets nothing and that error; with
    any other first message (or none) it gets nothing and [ErrBadMsg]. *)
Theorem single_reply_delivers (fs : Fs) (c : Call) (r : Request) :
  is_single r = true -> no_data r -> accepts (Out c) ->
  is_Some (Ch.recv (In c)) ->
  e_rc (run fs c None r) =
    match Ch.cerror (In c), head_msg (In c) with
    | None, VDir d => MkChan [VDir d] true None None 1
    | None, _ => MkChan [] true (Some ErrBadMsg) None 1
    | Some e, _ => MkChan [] true (Some e) None 1
    end /\
  e_blocked (run fs c None r) = false /\
  ch_closed (e_in (run fs c None r)) = true.
Proof.
  intros Hr Hnd Hacc Hin.
  assert (Hs : forall msg, exists out, Ch.send (Out c) (VMsg msg) = (out, true)).
  { intros msg. destruct (send_accepted _ (VMsg msg) Hacc) as (out & ? & _).
    eauto. }
  destruct r; try discriminate Hr; cbn [run]; unfold Stat, Wstat.
  - destruct (Hs (msg0 Tstat (fsys fs) p)) as [out Hsend].
    rewrite (dircall_reply _ _ _ _ Hsend). by apply put_reply_delivers.
  - destruct (Hs (MkMsg Twstat (fsys fs) p "" (Some d) 0 0 "" "" "" 0))
      as [out Hsend].
    rewrite (dircall_reply _ _ _ _ Hsend). by apply put_reply_delivers.
  - destruct (Hs (MkMsg Tput (fsys fs) p "" (Some d) off 0 "" "" "" 0))
      as [out Hsend].
    rewrite (Put_no_data _ _ _ _ _ _ _ _ Hnd Hsend). by apply put_reply_delivers.
Qed.

(** ** The properties on concrete states *)

Lemma send_failure_leaves_rc_open_witness :
  rejects (Out (call_down "i/o error")) /\
  ch_closed (e_rc (run fs_work (call_down "i/o error") None (RStat "/"))) = false /\
  ch_ncloses (e_rc (run fs_work (call_down "i/o error") None (RStat "/"))) = 0.
Proof.
  assert (H : rejects (Out (call_down "i/o error"))) by reflexivity.
  split; [exact H|].
  destruct (send_failure_leaves_rc_open fs_work (call_down "i/o error") None
              (RStat "/") H) as (_ & Hn & Hc & _).
  split; [exact Hc | exact Hn].
Defined.

Lemma errop_delivers_terminal_error_witness :
  e_rc (run fs_work (call_reply [] (Some "file not found")) None (RRemove "/x")) =
    MkChan [VErr (Some "file not found")] true (Some "file not found") None 1 /\
  e_rc (run fs_work (call_reply [] None) None (RMove "/a" "/b")) =
    MkChan [VErr None] true None None 1.
Proof.
  split.
  - apply (errop_delivers_terminal_error fs_work
             (call_reply [] (Some "file not found")) (RRemove "/x"));
      [reflexivity | reflexivity | by eexists].
  - apply (errop_delivers_terminal_error fs_work (call_reply [] None)
             (RMove "/a" "/b")); [reflexivity | reflexivity | by eexists].
Defined.

Lemma Put_dir_ignores_dc_witness :
  p_dc (Put fs_work (call_reply [VDir dir_d] None) None "/d" dir_d 0
          (Some dc_pending)) = Some dc_pending /\
  p_dc (Put fs_work (call_reply [VDir dir_d] None) None "/d" dir_d 0 None) = None.
Proof.
  split.
  - apply (Put_dir_ignores_dc fs_work (call_reply [VDir dir_d] None) None "/d"
             dir_d 0 (Some dc_pending)). by vm_compute.
  - apply (Put_dir_ignores_dc fs_work (call_reply [VDir dir_d] None) None "/d"
             dir_d 0 None). by vm_compute.
Defined.

(** C8 as stated fails: a caller that passes an open data channel with a
    directory entry finds it open afterwards. *)
Lemma Put_dir_dc_not_closed :
  ~ (forall (fs : Fs) (c : Call) (caller : Caller) (p : string) (d : Dir)
            (off : Z) (ch : Chan),
       dir_get d "type" = "d" ->
       exists ch', p_dc (Put fs c caller p d off (Some ch)) = Some ch' /\
                   ch_closed (Ch.settle ch') = true).
Proof.
  intros H.
  destruct (H fs_work (call_reply [VDir dir_d] None) None "/d" dir_d 0%Z
              dc_pending) as (ch' & Hdc & Hcl); [by vm_compute|].
  vm_compute in Hdc. injection Hdc as <-. discriminate Hcl.
Qed.

(** C6 as stated fails: when the request is rejected, a set without
    ["main"] is still without it. *)
Lemma getTrees_main_not_unconditional :
  ~ (forall (c : Call) (ts : gset string), "main" ∈ (getTrees c ts).1.1).
Proof.
  intros H. specialize (H (call_down "i/o error") ∅).
  change ((getTrees (call_down "i/o error") ∅).1.1) with (∅ : gset string) in H.
  by apply not_elem_of_empty in H.
Qed.

Lemma getTrees_adds_main_witness :
  (getTrees (call_reply [VStr "work"] (Some "i/o error")) ∅).1.1 =
    {["main"]} ∪ ({["work"]} ∪ ∅) ∪ ∅ /\
  (getTrees (call_reply [VStr "work"] (Some "i/o error")) ∅).2 =
    Some (Some "i/o error").
Proof.
  apply (getTrees_adds_main (call_reply [VStr "work"] (Some "i/o error")) ∅);
    reflexivity.
Defined.

Lemma Trees_sorted_exact_witness :
  exists l : list string,
    Trees 0 (MkWorld {[0 := fs_work]} {[0 := {["work"; "main"; "alt"]}]} ∅ ∅ ∅) =
      Returns l /\
    StronglySorted str_lt l /\ NoDup l /\
    (forall x : string,
       x ∈ l <->
       x ∈ trees_at
             (MkWorld {[0 := fs_work]} {[0 := {["work"; "main"; "alt"]}]} ∅ ∅ ∅)
             fs_work).
Proof.
  apply (Trees_sorted_exact 0
           (MkWorld {[0 := fs_work]} {[0 := {["work"; "main"; "alt"]}]} ∅ ∅ ∅)
           fs_work).
  reflexivity.
Defined.

Lemma Fsys_rebinds_witness :
  exists (w' : World) (r : option nat * error),
    Fsys 0 "main" w_work = (w', Returns r) /\ r.2 = None /\
    handles w' !! 0 = Some fs_work.
Proof.
  destruct (Fsys_rebinds 0 "main" w_work fs_work eq_refl)
    as (w' & r & HF & Hp & _ & _ & _ & _ & Hiff & _).
  exists w', r. split; [exact HF|]. split; [|exact Hp].
  apply Hiff. by left.
Defined.

Lemma Redial_auth_failure_witness :
  Redial 0 (env_serving (None, Some "zx: auth disabled") ["work"]) w_work =
    Redial 0 (MkDialEnv None (None, None) (call_reply [VStr "work"] None)) w_work /\
  exists w',
    Redial 0 (env_serving (None, Some "auth failed") ["work"]) w_work =
      (w', Returns (Some "tcp!h!zx: auth failed")) /\
    muxes w' !! 0 = Some (MkMux true None) /\ dials w' = ∅.
Proof.
  split.
  - apply (Redial_auth_failure 0
             (env_serving (None, Some "zx: auth disabled") ["work"])
             w_work w_work fs_work None "zx: auth disabled");
      reflexivity.
  - destruct (Redial_auth_failure 0
                (env_serving (None, Some "auth failed") ["work"])
                w_work w_work fs_work None "auth failed"
                eq_refl eq_refl eq_refl eq_refl) as [_ HB].
    destruct (HB eq_refl) as (w' & HR & _ & Hm & Hd & _).
    exists w'. split; [exact HR|]. split; [exact Hm | exact Hd].
Defined.

Lemma Redial_missing_tree_witness :
  exists w',
    Redial 0 (env_serving (Some 7, None) ["other"]) w_work =
      (w', Returns (Some "no fsys 'work' found in server")) /\
    dials w' = dials w_work.
Proof.
  destruct (Redial_missing_tree 0 (env_serving (Some 7, None) ["other"])
              w_work fs_work ∅) as (w' & HR & _ & _ & Hd & _).
  - reflexivity.
  - intros H. discriminate H.
  - reflexivity.
  - reflexivity.
  - intros e H. discriminate H.
  - reflexivity.
  - apply (bool_decide_unpack _). by vm_compute.
  - exists w'. split; [exact HR | exact Hd].
Defined.

Lemma Dial_cache_witness :
  Dial "h" [] (env_serving (Some 7, None) ["work"])
    (MkWorld {[5 := fs_work]} ∅ {["tcp!h!zx!main" := 5]} ∅ ∅) =
  (MkWorld {[5 := fs_work]} ∅ {["tcp!h!zx!main" := 5]} ∅ ∅,
   Returns (Some 5, None)).
Proof.
  apply (Dial_cache "h" [] (env_serving (Some 7, None) ["work"])
           (MkWorld {[5 := fs_work]} ∅ {["tcp!h!zx!main" := 5]} ∅ ∅)).
  by vm_compute.
Defined.



Lemma Redial_opens_handle_witness :
  exists w',
    Redial 0 (env_serving (Some 7, None) ["work"]) w_work = (w', Returns None) /\
    handles w' !! 0 =
      Some (MkFs false "tcp!h!zx" "tcp!h!zx!work" None (Some 7) 0 "work"
                 (Some 0) false 0) /\
    dials w' = {["tcp!h!zx!work" := 0]} /\
    muxes w' = {[0 := MkMux false (Some (0, 0))]}.
Proof.
  destruct (Redial_opens_handle 0 (env_serving (Some 7, None) ["work"])
              w_work fs_work ∅) as (w' & HR & _ & Hh & _ & Hd & Hm & _).
  - reflexivity.
  - reflexivity.
  - reflexivity.
  - reflexivity.
  - intros e H. discriminate H.
  - reflexivity.
  - apply (bool_decide_unpack _). by vm_compute.
  - exists w'. split; [exact HR|]. split; [exact Hh|]. split; [exact Hd | exact Hm].
Defined.



Lemma Redial_failure_is_clean_witness :
  dials (Redial 0 (env_serving (Some 7, None) ["other"]) w_work).1 = dials w_work /\
  waits (Redial 0 (env_serving (Some 7, None) ["other"]) w_work).1 = waits w_work.
Proof.
  destruct (Redial_failure_is_clean 0 (env_serving (Some 7, None) ["other"])
              w_work (Redial 0 (env_serving (Some 7, None) ["other"]) w_work).1
              fs_work "no fsys 'work' found in server")
    as (Hd & Hw & _).
  - reflexivity.
  - reflexivity.
  - by vm_compute.
  - split; [exact Hd | exact Hw].
Defined.

Lemma Dial_twice_same_handle_witness :
  Dial "tcp!h!zx" [Some 1] (MkDialEnv (Some "no route") (None, None)
                           (call_down "i/o error"))
    (Dial "h" [] (env_serving (Some 7, None) []) w_empty).1 =
  ((Dial "h" [] (env_serving (Some 7, None) []) w_empty).1,
   Returns (Some 0, None)).
Proof.
  apply (Dial_twice_same_handle "h" "tcp!h!zx" [] [Some 1]
           (env_serving (Some 7, None) [])
           (MkDialEnv (Some "no route") (None, None) (call_down "i/o error"))
           w_empty).
  - reflexivity.
  - reflexivity.
Defined.

Lemma Dial_lists_trees_witness :
  exists (ad t : string) (l : list string),
    Addr.splitaddr (Addr.FillAddr "tcp!h!zx!work") = Some (ad, t) /\
    Trees 0 (Dial "tcp!h!zx!work" [] (env_serving (Some 7, None) ["work"; "alt"])
               w_empty).1 = Returns l /\
    t ∈ l /\ "main" ∈ l /\
    (forall x, x ∈ l <->
       x = "main" \/
       VStr x ∈ ch_buf (In (env_trees (env_serving (Some 7, None) ["work"; "alt"])))).
Proof.
  apply (Dial_lists_trees "tcp!h!zx!work" [] (env_serving (Some 7, None) ["work"; "alt"])
           w_empty).
  - reflexivity.
  - reflexivity.
Defined.

Lemma Redial_on_copy_witness :
  exists (w' : World) (fq : Fs),
    Redial 1 (env_serving (Some 7, None) ["work"])
      (MkWorld {[0 := fs_open; 1 := set_fsys "main" fs_open]}
               {[0 := {["work"; "main"]}]} {["tcp!h!zx!work" := 0]}
               {[0 := MkMux false (Some (0, 0))]} {[0 := false]}) =
      (w', Returns None) /\
    handles w' !! 0 = Some (set_closed true fs_open) /\
    handles w' !! 1 = Some fq /\ closed fq = false /\ fsys fq = "main" /\
    raddr fq = "tcp!h!zx!work" /\ m fq <> Some 0 /\
    dials w' !! "tcp!h!zx!work" = Some 1 /\
    waits w' !! 0 = Some true.
Proof.
  apply (Redial_on_copy 0 1 0 "main" (env_serving (Some 7, None) ["work"])
           (MkWorld {[0 := fs_open; 1 := set_fsys "main" fs_open]}
                    {[0 := {["work"; "main"]}]} {["tcp!h!zx!work" := 0]}
                    {[0 := MkMux false (Some (0, 0))]} {[0 := false]})
           fs_open {["work"; "main"]} false).
  - reflexivity.
  - reflexivity.
  - reflexivity.
  - reflexivity.
  - reflexivity.
  - intros H. discriminate H.
  - reflexivity.
  - reflexivity.
  - intros e H. discriminate H.
  - reflexivity.
  - apply (bool_decide_unpack _). by vm_compute.
Defined.




Lemma Put_streams_data_witness :
  e_out (p_env (Put fs_work (call_reply [VDir ∅] None) None "/f" ∅ 0
                  (Some (MkChan [VBytes [x68; x69]%byte] true None None 1)))) =
    MkChan [VMsg (MkMsg Tput "work" "/f" "" (Some ∅) 0 0 "" "" "" 0);
            VBytes [x68; x69]%byte] true None None 1 /\
  p_own (Put fs_work (call_reply [VDir ∅] None) None "/f" ∅ 0
           (Some (MkChan [VBytes [x68; x69]%byte] true None None 1))) = None.
Proof.
  destruct (Put_streams_data fs_work (call_reply [VDir ∅] None) None "/f" ∅ 0
              (MkChan [VBytes [x68; x69]%byte] true None None 1) [])
    as (Ho & _ & Hown & _); try reflexivity.
  split; [exact Ho | exact Hown].
Defined.

Lemma Put_stops_at_rejected_chunk_witness :
  e_rc (p_env (Put fs_work
                 (MkCall (sink [] 1 (Some "i/o error")) (Ch.make None))
                 None "/f" ∅ 0 (Some dc_pending))) =
    MkChan [] true (Some "i/o error") None 1 /\
  p_dc (Put fs_work (MkCall (sink [] 1 (Some "i/o error")) (Ch.make None))
          None "/f" ∅ 0 (Some dc_pending)) =
    Some (MkChan [] true (Some "i/o error") None 1).
Proof.
  destruct (Put_stops_at_rejected_chunk fs_work
              (MkCall (sink [] 1 (Some "i/o error")) (Ch.make None))
              "/f" ∅ 0 dc_pending [] 0 (Some "i/o error"))
    as (_ & Hrc & _ & _ & Hdc); try reflexivity.
  - cbn. lia.
  - split; [exact Hrc | exact Hdc].
Defined.


Lemma single_reply_delivers_witness :
  e_rc (run fs_work (call_reply [VDir dir_d] None) None (RStat "/d")) =
    MkChan [VDir dir_d] true None None 1 /\
  e_blocked (run fs_work (call_reply [VDir dir_d] None) None (RStat "/d")) = false /\
  ch_closed (e_in (run fs_work (call_reply [VDir dir_d] None) None (RStat "/d"))) =
    true.
Proof.
  apply (single_reply_delivers fs_work (call_reply [VDir dir_d] None) (RStat "/d")).
  - reflexivity.
  - exact I.
  - reflexivity.
  - by eexists.
Defined.
